(** * A shallow embedding of Julia's [src/smallintset.c]

    The small-integer index set: an open-addressing hash set of biased
    indices ([0] is the empty slot, [v > 0] stands for the index [v - 1]),
    stored in a Julia array of element type [UInt8], [UInt16] or [UInt32].

    Modelling choices:
    - a [jl_array_t] is its element type and the list of its slots;
    - [size_t] quantities (sizes, indices) are [Z]; capacities are array
      lengths, which Julia's allocator bounds far below [2^62], so the
      shifts on sizes are written without a 64-bit wrap-around;
    - a stored value is truncated to the element width, as the C
      conversion to [uint8_t]/[uint16_t]/[uint32_t] does;
    - [abort()] and a failing [assert] (builds with assertions) are the
      [Abort] outcome; the two [while (1)] loops take a fuel argument and
      report [NoFuel] when it runs out;
    - the atomics are sequential reads and writes: the single-writer code
      is modelled, not the memory model;
    - the callbacks [hash(val, data)] and [eq(val, key, data, hv)] are
      functions of the index alone ([data], [key] and [hv] are fixed during
      a call). *)

From Stdlib Require Import ZArith List Lia Bool.
Import ListNotations.
Open Scope Z_scope.

(** ** Outcomes of the C code *)

Inductive M (A : Type) : Type :=
| Ok : A -> M A
| Abort : M A
| NoFuel : M A.
Arguments Ok {A} _.
Arguments Abort {A}.
Arguments NoFuel {A}.

Definition bind {A B : Type} (m : M A) (k : A -> M B) : M B :=
  match m with
  | Ok a => k a
  | Abort => Abort
  | NoFuel => NoFuel
  end.

Notation "x <- m ;; k" := (bind m (fun x => k))
  (at level 61, m at next level, right associativity).

(** ** Arrays of small integers *)

Inductive elty : Type := UInt8 | UInt16 | UInt32 | AnyType.

Record jl_array : Type := mk_array { el : elty; data : list Z }.

(** [jl_array_nrows] *)
Definition nrows (a : jl_array) : Z := Z.of_nat (length (data a)).

Fixpoint list_set (l : list Z) (n : nat) (v : Z) : list Z :=
  match l, n with
  | [], _ => []
  | _ :: t, O => v :: t
  | x :: t, S n' => x :: list_set t n' v
  end.

(** [jl_intref]: relaxed load; [abort()] for any other element type. *)
Definition jl_intref (a : jl_array) (idx : Z) : M Z :=
  match el a with
  | UInt8 | UInt16 | UInt32 => Ok (nth (Z.to_nat idx) (data a) 0)
  | AnyType => Abort
  end.

(** [jl_intref_acquire]: the same read, with acquire ordering. *)
Definition jl_intref_acquire (a : jl_array) (idx : Z) : M Z :=
  match el a with
  | UInt8 | UInt16 | UInt32 => Ok (nth (Z.to_nat idx) (data a) 0)
  | AnyType => Abort
  end.

(** [jl_intset_release]: store of [val] converted to the element type. *)
Definition jl_intset_release (a : jl_array) (idx val : Z) : M jl_array :=
  match el a with
  | UInt8 => Ok (mk_array UInt8 (list_set (data a) (Z.to_nat idx) (Z.land val (Z.ones 8))))
  | UInt16 => Ok (mk_array UInt16 (list_set (data a) (Z.to_nat idx) (Z.land val (Z.ones 16))))
  | UInt32 => Ok (mk_array UInt32 (list_set (data a) (Z.to_nat idx) (Z.land val (Z.ones 32))))
  | AnyType => Abort
  end.

(** [jl_max_int] *)
Definition jl_max_int (a : jl_array) : Z :=
  match el a with
  | UInt8 => 255
  | UInt16 => 65535
  | UInt32 => 4294967295
  | AnyType => 0
  end.

(** [jl_alloc_int_1d]: a zero-filled array whose element type is chosen
    from [np]; the [assert(np < 0x7FFFFFFF)] is an abort. *)
Definition jl_alloc_int_1d (np len : Z) : M jl_array :=
  if np <? 255 then Ok (mk_array UInt8 (repeat 0 (Z.to_nat len)))
  else if np <? 65535 then Ok (mk_array UInt16 (repeat 0 (Z.to_nat len)))
  else if np <? 2147483647 then Ok (mk_array UInt32 (repeat 0 (Z.to_nat len)))
  else Abort.

(** [max_probe] and [h2index] *)
Definition max_probe (size : Z) : Z :=
  if size <=? 1024 then 16 else Z.shiftr size 6.

Definition h2index (hv sz : Z) : Z := Z.land hv (sz - 1).

(** ** Lookup *)

(** The [do { ... } while (iter <= maxprobe && index != orig)] loop of
    [jl_smallintset_lookup]; it runs at most [maxprobe + 1] times, which is
    the [n] it is started with, so the [O] case is never reached from
    [jl_smallintset_lookup]. *)
Fixpoint lookup_loop (n : nat) (cache : jl_array) (eq : Z -> bool)
    (sz maxprobe orig index iter : Z) : M Z :=
  match n with
  | O => Ok (-1)
  | S n' =>
      val1 <- jl_intref_acquire cache index ;;
      if val1 =? 0 then Ok (-1)
      else if eq (val1 - 1) then Ok (val1 - 1)
      else
        let index := Z.land (index + 1) (sz - 1) in
        let iter := iter + 1 in
        if (iter <=? maxprobe) && negb (index =? orig)
        then lookup_loop n' cache eq sz maxprobe orig index iter
        else Ok (-1)
  end.

Definition jl_smallintset_lookup (cache : jl_array) (eq : Z -> bool) (hv : Z) : M Z :=
  let sz := nrows cache in
  if sz =? 0 then Ok (-1)
  else
    let maxprobe := max_probe sz in
    let index := h2index hv sz in
    lookup_loop (Z.to_nat (maxprobe + 1)) cache eq sz maxprobe index index 0.

(** ** Direct placement: [smallintset_insert_]
    [Some a'] is the return value [1] with the updated array, [None] is [0]
    (the array unchanged). *)
Fixpoint insert_loop (n : nat) (a : jl_array) (sz maxprobe orig index iter val1 : Z)
    : M (option jl_array) :=
  match n with
  | O => Ok None
  | S n' =>
      v <- jl_intref a index ;;
      if v =? 0 then
        a' <- jl_intset_release a index val1 ;; Ok (Some a')
      else
        let index := Z.land (index + 1) (sz - 1) in
        let iter := iter + 1 in
        if (iter <=? maxprobe) && negb (index =? orig)
        then insert_loop n' a sz maxprobe orig index iter val1
        else Ok None
  end.

Definition smallintset_insert_ (a : jl_array) (hv val1 : Z) : M (option jl_array) :=
  let sz := nrows a in
  if sz <=? 1 then Ok None
  else
    let index := h2index hv sz in
    let maxprobe := max_probe sz in
    insert_loop (Z.to_nat (maxprobe + 1)) a sz maxprobe index index 0 val1.

Section SmallIntSet.

(** [hash(val, data)] *)
Variable hash : Z -> Z.
(** [HT_N_INLINE] of [support/htable.h] (not among the sources; 32 in Julia). *)
Variable HT_N_INLINE : Z.

(** ** Rehash *)

(** First loop of [smallintset_rehash]: [np] raised to the largest slot. *)
Fixpoint rehash_max (k : nat) (a : jl_array) (i np : Z) : M Z :=
  match k with
  | O => Ok np
  | S k' =>
      val <- jl_intref a i ;;
      rehash_max k' a (i + 1) (if val >? np then val else np)
  end.

(** The [for] loop re-inserting the old slots [i, i+1, ...] into [newa];
    [None] is the [break] ([i != sz] afterwards). *)
Fixpoint rehash_fill (k : nat) (a newa : jl_array) (i : Z) : M (option jl_array) :=
  match k with
  | O => Ok (Some newa)
  | S k' =>
      val1 <- jl_intref a i ;;
      if negb (val1 =? 0) then
        r <- smallintset_insert_ newa (hash (val1 - 1)) val1 ;;
        match r with
        | None => Ok None
        | Some newa' => rehash_fill k' a newa' (i + 1)
        end
      else rehash_fill k' a newa (i + 1)
  end.

(** The [while (1)] loop: allocate, re-insert, publish or double. *)
Fixpoint rehash_retry (fuel : nat) (a : jl_array) (np newsz : Z) : M jl_array :=
  match fuel with
  | O => NoFuel
  | S f =>
      newa <- jl_alloc_int_1d np newsz ;;
      r <- rehash_fill (length (data a)) a newa 0 ;;
      match r with
      | Some newa => Ok newa
      | None => rehash_retry f a np (Z.shiftl newsz 1)
      end
  end.

(** [smallintset_rehash]: the result is the array stored into [*pcache]. *)
Definition smallintset_rehash (fuel : nat) (a : jl_array) (newsz np : Z) : M jl_array :=
  np <- rehash_max (length (data a)) a 0 np ;;
  rehash_retry fuel a np newsz.

(** ** Insert *)

(** The growth step of [jl_smallintset_insert] on a full table. *)
Definition grow_size (sz : Z) : Z :=
  if sz <? HT_N_INLINE then HT_N_INLINE
  else if (sz >=? Z.shiftl 1 19) || (sz <=? Z.shiftl 1 8) then Z.shiftl sz 1
  else Z.shiftl sz 2.

(** The [while (1)] loop of [jl_smallintset_insert].  The state is the
    current table; [pub] lists the tables published so far, in order. *)
Fixpoint insert_retry (fuel : nat) (a : jl_array) (val : Z) (pub : list jl_array)
    : M (jl_array * list jl_array) :=
  match fuel with
  | O => NoFuel
  | S f =>
      r <- smallintset_insert_ a (hash val) (val + 1) ;;
      match r with
      | Some a' => Ok (a', pub)
      | None =>
          a2 <- smallintset_rehash fuel a (grow_size (nrows a)) 0 ;;
          insert_retry f a2 val (pub ++ [a2])
      end
  end.

(** [jl_smallintset_insert]: the final current table and the tables it
    published. *)
Definition jl_smallintset_insert (fuel : nat) (a : jl_array) (val : Z)
    : M (jl_array * list jl_array) :=
  if val + 1 >? jl_max_int a then
    a1 <- smallintset_rehash fuel a (nrows a) (val + 1) ;;
    insert_retry fuel a1 val [a1]
  else insert_retry fuel a val [].

(** A sequence of inserts; the published tables are collected in order. *)
Fixpoint insert_all (fuel : nat) (a : jl_array) (vals : list Z)
    : M (jl_array * list jl_array) :=
  match vals with
  | [] => Ok (a, [])
  | v :: vs =>
      r <- jl_smallintset_insert fuel a v ;;
      let '(a1, p1) := r in
      r2 <- insert_all fuel a1 vs ;;
      let '(a2, p2) := r2 in
      Ok (a2, p1 ++ p2)
  end.

(** Re-insertion of the slots [slots] in list (slot-index) order into
    [t], each with [hash (v - 1)], by the placement of [smallintset_insert_];
    [None] when a placement fails. *)
Fixpoint build_in_order (slots : list Z) (t : jl_array) : M (option jl_array) :=
  match slots with
  | [] => Ok (Some t)
  | v :: vs =>
      if v =? 0 then build_in_order vs t
      else
        r <- smallintset_insert_ t (hash (v - 1)) v ;;
        match r with
        | None => Ok None
        | Some t' => build_in_order vs t'
        end
  end.

End SmallIntSet.

(** The empty table a set starts from ([jl_an_empty_vec_any]). *)
Definition empty_cache : jl_array := mk_array AnyType [].

(** ** The probe sequence and lookup as the specification states them *)

(** Visited slots: from [h mod sz], stepping by one modulo [sz], at most
    [maxProbe + 1] of them and never the start twice. *)
Definition visits (sz h : Z) : list Z :=
  let maxProbe := if sz <=? 1024 then 16 else sz / 64 in
  map (fun k => (h mod sz + Z.of_nat k) mod sz)
      (seq 0 (Z.to_nat (Z.min (maxProbe + 1) sz))).

Fixpoint probe_lookup (slots : list Z) (eq : Z -> bool) (ps : list Z) : Z :=
  match ps with
  | [] => -1
  | p :: ps' =>
      let v := nth (Z.to_nat p) slots 0 in
      if v =? 0 then -1
      else if eq (v - 1) then v - 1
      else probe_lookup slots eq ps'
  end.

(** Lookup as the specification words it; [-1] is NotFound. *)
Definition lookup_spec (slots : list Z) (eq : Z -> bool) (h : Z) : Z :=
  let sz := Z.of_nat (length slots) in
  if sz =? 0 then -1 else probe_lookup slots eq (visits sz h).

(** Placement at the first empty visited slot. *)
Fixpoint place_first (t : jl_array) (ps : list Z) (v : Z) : M (option jl_array) :=
  match ps with
  | [] => Ok None
  | p :: ps' =>
      x <- jl_intref t p ;;
      if x =? 0 then t' <- jl_intset_release t p v ;; Ok (Some t')
      else place_first t ps' v
  end.

(** Number of occupied slots. *)
Definition count_nz (l : list Z) : nat := length (filter (fun x => negb (x =? 0)) l).

(** Slots hold values of the element type. *)
Definition wf_array (a : jl_array) : Prop :=
  forall x, In x (data a) -> 0 <= x <= jl_max_int a.

Definition is_pow2 (z : Z) : Prop := exists k, 0 <= k /\ z = 2 ^ k.

(** Largest value of an element type. *)
Definition elty_max (t : elty) : Z := jl_max_int (mk_array t []).

Definition ex_hash (i : Z) : Z := if i =? 300 then 0 else 32.

(** The 18 inserts of the counterexample: [0 .. 16], then [300]. *)
Definition ex_vals : list Z := map Z.of_nat (seq 0 17) ++ [300].

Definition ex_run : M (jl_array * list jl_array) :=
  insert_all ex_hash 32 20 empty_cache ex_vals.

(** * Theorems *)

(** ** Code defects found by evaluation *)

(** C1 (code defect): after inserting [0 .. 16] and then [300] into an
    empty set, with a hash under which [0 .. 16] collide at capacity 32 but
    not at 64, [lookup] with the hash of [300] and an equality that accepts
    exactly [300] reports NotFound.  The growth rehash after the widening
    one narrows the table back to 8 bits, and [301] is stored as [45]. *)
Lemma lookup_misses_inserted_300 :
  match ex_run with
  | Ok (a, _) =>
      jl_smallintset_lookup a (fun i => i =? 300) (ex_hash 300) = Ok (-1) /\
      nth 0 (data a) 0 = 45
  | _ => False
  end.
Proof. vm_compute. split; reflexivity. Qed.

(** C2 (code defect): in the same run, the published tables have the
    element types 8, 8, 16 and then 8 bits again, and the final table's
    largest value is below [300 + 1]. *)
Lemma width_narrows_on_growth :
  match ex_run with
  | Ok (a, pub) =>
      map el pub = [UInt8; UInt8; UInt16; UInt8] /\ jl_max_int a < 300 + 1
  | _ => False
  end.
Proof. vm_compute. split; reflexivity. Qed.

(** ** Growth policy *)

(** C6: on a full table of capacity [sz], the next capacity is
    [HT_N_INLINE] when [sz < HT_N_INLINE], [sz * 2] when [sz >= 2^19] or
    [sz <= 2^8], and [sz * 4] otherwise. *)
Theorem grow_size_policy : forall HT sz,
  grow_size HT sz =
  if sz <? HT then HT
  else if (2 ^ 19 <=? sz) || (sz <=? 2 ^ 8) then sz * 2
  else sz * 4.
Proof.
  intros HT sz. unfold grow_size.
  rewrite !Z.shiftl_mul_pow2 by lia. rewrite Z.geb_leb. reflexivity.
Qed.

Lemma grow_size_eq : forall HT sz,
  grow_size HT sz =
  if sz <? HT then HT
  else if (2 ^ 19 <=? sz) || (sz <=? 2 ^ 8) then sz * 2
  else sz * 4.
Proof.
  intros HT sz. unfold grow_size.
  rewrite !Z.shiftl_mul_pow2 by lia. rewrite Z.geb_leb. reflexivity.
Qed.

(** ** Width selection *)

(** C5 (counterexample): for [np = 255], whose value fits the 8-bit
    class ([maxValue = 255]), the allocation picks the 16-bit class. *)
Lemma jl_alloc_int_1d_255_not_8bit :
  ~ (forall np len, 0 <= np <= 255 ->
       exists d, jl_alloc_int_1d np len = Ok (mk_array UInt8 d)).
Proof.
  intros H. destruct (H 255 32) as [d Hd]; [lia|].
  vm_compute in Hd. discriminate.
Qed.

(** C5 (amended): for every [np < 2^31 - 1] the allocation returns a
    zero-filled array of the smallest class whose largest value is strictly
    greater than [np]. *)
Theorem jl_alloc_int_1d_width : forall np len,
  0 <= np < 2147483647 ->
  exists a, jl_alloc_int_1d np len = Ok a /\
    data a = repeat 0 (Z.to_nat len) /\ el a <> AnyType /\
    np < jl_max_int a /\
    (forall t, t <> AnyType -> np < elty_max t -> jl_max_int a <= elty_max t).
Proof.
  intros np len Hnp. unfold jl_alloc_int_1d.
  destruct (np <? 255) eqn:E1; [|destruct (np <? 65535) eqn:E2;
    [|destruct (np <? 2147483647) eqn:E3]];
  rewrite ?Z.ltb_lt, ?Z.ltb_ge in *; try lia;
  eexists; (split; [reflexivity|]); cbn;
  (split; [reflexivity|]); (split; [discriminate|]);
  (split; [lia|]); intros [] Ht Hm; cbn in *; lia.
Qed.

Lemma jl_alloc_int_1d_width_witness :
  0 <= 255 < 2147483647 /\
  exists a, jl_alloc_int_1d 255 32 = Ok a /\ 255 < jl_max_int a.
Proof.
  split; [lia|].
  destruct (jl_alloc_int_1d_width 255 32 ltac:(lia)) as [a [H1 [_ [_ [H2 _]]]]].
  exists a. split; [exact H1 | exact H2].
Defined.

(** ** The domain boundary *)

(** C8 (counterexample): inserting the index [2^31 - 2] (below [2^31])
    into a 16-bit table aborts, while inserting [2^31] into a 32-bit table
    with room does not. *)
Lemma domain_boundary_counterexample :
  jl_smallintset_insert ex_hash 32 4 (mk_array UInt16 (repeat 0 32)) (2 ^ 31 - 2) = Abort /\
  exists a p, jl_smallintset_insert ex_hash 32 4 (mk_array UInt32 (repeat 0 32)) (2 ^ 31)
              = Ok (a, p).
Proof.
  split; [vm_compute; reflexivity|].
  vm_compute. do 2 eexists. reflexivity.
Qed.

(** ** Termination *)

(** ** The probe sequence *)

Lemma land_pow2 : forall x k, 0 <= k -> Z.land x (2 ^ k - 1) = x mod 2 ^ k.
Proof.
  intros x k Hk. replace (2 ^ k - 1) with (Z.ones k) by (rewrite Z.ones_equiv; lia).
  apply Z.land_ones. exact Hk.
Qed.

Lemma pow2_pos : forall sz, is_pow2 sz -> 0 < sz.
Proof. intros sz [k [Hk ->]]. apply Z.pow_pos_nonneg; lia. Qed.

Lemma mod_shift_eq : forall sz s m,
  0 <= s < sz -> 0 < m <= sz -> ((s + m) mod sz = s <-> m = sz).
Proof.
  intros sz s m Hs Hm. split.
  - intros H. destruct (Z.lt_ge_cases (s + m) sz).
    + rewrite Z.mod_small in H by lia. lia.
    + rewrite <- (Z.mod_add (s + m) (-1) sz) in H by lia.
      rewrite Z.mod_small in H by lia. lia.
  - intros ->. replace (s + sz) with (s + 1 * sz) by lia.
    rewrite Z.mod_add by lia. apply Z.mod_small. lia.
Qed.

Lemma max_probe_eq : forall sz,
  max_probe sz = if sz <=? 1024 then 16 else sz / 64.
Proof.
  intros sz. unfold max_probe. destruct (sz <=? 1024); [reflexivity|].
  rewrite Z.shiftr_div_pow2 by lia. reflexivity.
Qed.

Lemma max_probe_nonneg : forall sz, 0 <= sz -> 0 <= max_probe sz.
Proof.
  intros sz H. rewrite max_probe_eq. destruct (sz <=? 1024); [lia|].
  apply Z.div_pos; lia.
Qed.

Lemma visits_eq : forall sz h,
  visits sz h = map (fun i => (h mod sz + Z.of_nat i) mod sz)
                    (seq 0 (Z.to_nat (Z.min (max_probe sz + 1) sz))).
Proof. intros sz h. unfold visits. rewrite max_probe_eq. reflexivity. Qed.

Section Probe.

Variables sz mp s : Z.
Hypothesis Hsz : is_pow2 sz.
Hypothesis Hs : 0 <= s < sz.
Hypothesis Hmp : 0 <= mp.

Lemma probe_next_index : forall j : nat,
  Z.land ((s + Z.of_nat j) mod sz + 1) (sz - 1) = (s + Z.of_nat (S j)) mod sz.
Proof.
  intros j. destruct Hsz as [k [Hk Hk']].
  rewrite Hk', land_pow2 by exact Hk. rewrite <- Hk'.
  rewrite Z.add_mod_idemp_l by lia. f_equal. lia.
Qed.

Lemma probe_continue : forall j : nat,
  (S j <= Z.to_nat (Z.min (mp + 1) sz))%nat ->
  ((Z.of_nat j + 1 <=? mp) && negb ((s + Z.of_nat (S j)) mod sz =? s))
  = (S j <? Z.to_nat (Z.min (mp + 1) sz))%nat.
Proof.
  intros j Hj. pose proof (pow2_pos sz Hsz) as Hpos.
  pose proof (mod_shift_eq sz s (Z.of_nat (S j)) Hs) as Hm.
  destruct (Nat.ltb_spec (S j) (Z.to_nat (Z.min (mp + 1) sz))) as [Hl|Hl];
  destruct (Z.leb_spec (Z.of_nat j + 1) mp) as [Hp|Hp];
  destruct (Z.eqb_spec ((s + Z.of_nat (S j)) mod sz) s) as [He|He];
  cbn [andb negb]; try reflexivity; exfalso.
  - apply Hm in He; lia.
  - lia.
  - lia.
  - apply He, Hm; lia.
Qed.

(** The lookup loop walks the visit list. *)
Lemma lookup_loop_visits : forall cache eq n (j : nat),
  el cache <> AnyType ->
  (j < Z.to_nat (Z.min (mp + 1) sz))%nat ->
  (Z.to_nat (Z.min (mp + 1) sz) - j <= n)%nat ->
  lookup_loop n cache eq sz mp s ((s + Z.of_nat j) mod sz) (Z.of_nat j) =
  Ok (probe_lookup (data cache) eq
        (map (fun i => (s + Z.of_nat i) mod sz)
             (seq j (Z.to_nat (Z.min (mp + 1) sz) - j)))).
Proof.
  intros cache eq n. induction n as [|n IH]; intros j Hel Hj Hn; [lia|].
  destruct (Z.to_nat (Z.min (mp + 1) sz) - j)%nat as [|r] eqn:Er; [lia|].
  cbn [seq map probe_lookup lookup_loop].
  assert (Hread : jl_intref_acquire cache ((s + Z.of_nat j) mod sz) =
                  Ok (nth (Z.to_nat ((s + Z.of_nat j) mod sz)) (data cache) 0))
    by (unfold jl_intref_acquire; destruct (el cache); congruence).
  rewrite Hread. cbn [bind].
  destruct (nth _ (data cache) 0 =? 0); [reflexivity|].
  destruct (eq _); [reflexivity|].
  rewrite probe_next_index, probe_continue by lia.
  destruct (Nat.ltb_spec (S j) (Z.to_nat (Z.min (mp + 1) sz))) as [Hl|Hl].
  - replace (Z.of_nat j + 1) with (Z.of_nat (S j)) by lia. rewrite IH by (try exact Hel; lia).
    replace r with (Z.to_nat (Z.min (mp + 1) sz) - S j)%nat by lia. reflexivity.
  - replace r with 0%nat by lia. reflexivity.
Qed.

(** The placement loop walks the visit list. *)
Lemma insert_loop_visits : forall a v n (j : nat),
  (j < Z.to_nat (Z.min (mp + 1) sz))%nat ->
  (Z.to_nat (Z.min (mp + 1) sz) - j <= n)%nat ->
  insert_loop n a sz mp s ((s + Z.of_nat j) mod sz) (Z.of_nat j) v =
  place_first a (map (fun i => (s + Z.of_nat i) mod sz)
                     (seq j (Z.to_nat (Z.min (mp + 1) sz) - j))) v.
Proof.
  intros a v n. induction n as [|n IH]; intros j Hj Hn; [lia|].
  destruct (Z.to_nat (Z.min (mp + 1) sz) - j)%nat as [|r] eqn:Er; [lia|].
  cbn [seq map place_first insert_loop].
  destruct (jl_intref a _) as [x| |]; cbn [bind]; try reflexivity.
  destruct (x =? 0); [reflexivity|].
  rewrite probe_next_index, probe_continue by lia.
  destruct (Nat.ltb_spec (S j) (Z.to_nat (Z.min (mp + 1) sz))) as [Hl|Hl].
  - replace (Z.of_nat j + 1) with (Z.of_nat (S j)) by lia. rewrite IH by (try exact Hel; lia).
    replace r with (Z.to_nat (Z.min (mp + 1) sz) - S j)%nat by lia. reflexivity.
  - replace r with 0%nat by lia. reflexivity.
Qed.

End Probe.

Lemma h2index_mod : forall hv sz, is_pow2 sz -> h2index hv sz = hv mod sz.
Proof.
  intros hv sz [k [Hk ->]]. unfold h2index. apply land_pow2. exact Hk.
Qed.

Lemma probe_start : forall sz s, 0 <= s < sz -> s = (s + Z.of_nat 0) mod sz.
Proof. intros sz s Hs. rewrite Z.add_0_r, Z.mod_small; lia. Qed.

(** Direct placement is placement at the first empty visited slot. *)
Lemma smallintset_insert_visits : forall a hv v,
  is_pow2 (nrows a) -> 2 <= nrows a ->
  smallintset_insert_ a hv v = place_first a (visits (nrows a) hv) v.
Proof.
  intros a hv v Hp H2. unfold smallintset_insert_.
  destruct (Z.leb_spec (nrows a) 1) as [H|_]; [lia|].
  rewrite h2index_mod by exact Hp. rewrite visits_eq.
  pose proof (pow2_pos _ Hp). pose proof (max_probe_nonneg (nrows a)).
  assert (Hs : 0 <= hv mod nrows a < nrows a) by (apply Z.mod_pos_bound; lia).
  assert (Hmp : 0 <= max_probe (nrows a)) by (apply max_probe_nonneg; lia).
  pose proof (insert_loop_visits (nrows a) (max_probe (nrows a)) (hv mod nrows a)
                Hp Hs Hmp a v (Z.to_nat (max_probe (nrows a) + 1)) 0) as HL.
  rewrite <- probe_start in HL by exact Hs. cbn [Z.of_nat] in HL.
  rewrite Nat.sub_0_r in HL. apply HL; lia.
Qed.

(** ** Lookup *)

(** C7: on a table of capacity 0 lookup returns NotFound at once; on a
    table of power-of-two capacity it probes the visit list of the
    specification (start [h mod sz], step [+1 mod sz], at most
    [maxProbe + 1] slots, never the start twice) and returns NotFound on the
    first empty slot, [v - 1] on the first slot [v] whose [v - 1] the
    equality accepts, and NotFound when the list is exhausted. *)
Theorem jl_smallintset_lookup_spec : forall cache eq h,
  (nrows cache = 0 -> jl_smallintset_lookup cache eq h = Ok (-1)) /\
  (is_pow2 (nrows cache) -> el cache <> AnyType ->
   jl_smallintset_lookup cache eq h = Ok (lookup_spec (data cache) eq h)).
Proof.
  intros cache eq h. split.
  - intros H0. unfold jl_smallintset_lookup. rewrite H0. reflexivity.
  - intros Hp Hel. pose proof (pow2_pos _ Hp) as Hpos.
    unfold jl_smallintset_lookup, lookup_spec. fold (nrows cache).
    destruct (Z.eqb_spec (nrows cache) 0) as [H0|_]; [lia|].
    rewrite h2index_mod by exact Hp. rewrite visits_eq.
    assert (Hs : 0 <= h mod nrows cache < nrows cache) by (apply Z.mod_pos_bound; lia).
    assert (Hmp : 0 <= max_probe (nrows cache)) by (apply max_probe_nonneg; lia).
    pose proof (lookup_loop_visits (nrows cache) (max_probe (nrows cache)) (h mod nrows cache)
                  Hp Hs Hmp cache eq (Z.to_nat (max_probe (nrows cache) + 1)) 0) as HL.
    rewrite <- probe_start in HL by exact Hs. cbn [Z.of_nat] in HL.
    rewrite Nat.sub_0_r in HL. apply HL; [exact Hel | lia | lia].
Qed.

Lemma jl_smallintset_lookup_spec_witness :
  is_pow2 (nrows (mk_array UInt8 [0; 3; 0; 0])) /\
  jl_smallintset_lookup (mk_array UInt8 [0; 3; 0; 0]) (fun i => i =? 2) 5 =
  Ok (lookup_spec [0; 3; 0; 0] (fun i => i =? 2) 5).
Proof.
  assert (Hp : is_pow2 (nrows (mk_array UInt8 [0; 3; 0; 0]))) by (exists 2; split; reflexivity || lia).
  split; [exact Hp|].
  apply (proj2 (jl_smallintset_lookup_spec (mk_array UInt8 [0; 3; 0; 0]) (fun i => i =? 2) 5)).
  - exact Hp.
  - discriminate.
Defined.

Example lookup_spec_example : lookup_spec [0; 3; 0; 0] (fun i => i =? 2) 5 = 2.
Proof. reflexivity. Qed.

(** ** Slots and placement *)

Lemma land_bound : forall x b, 0 <= b -> 0 <= Z.land x b <= b.
Proof.
  intros x b Hb. apply Z.ldiff_le; [exact Hb|].
  apply Z.bits_inj'. intros n _.
  rewrite Z.ldiff_spec, Z.land_spec, Z.bits_0.
  destruct (Z.testbit x n), (Z.testbit b n); reflexivity.
Qed.

Lemma count_nz_cons : forall x l,
  count_nz (x :: l) = if x =? 0 then count_nz l else S (count_nz l).
Proof. intros x l. unfold count_nz. cbn. destruct (x =? 0); reflexivity. Qed.

Lemma length_list_set : forall l n v, length (list_set l n v) = length l.
Proof. induction l as [|x l IH]; intros [|n] v; cbn; auto. Qed.

Lemma In_list_set_new : forall l n v, (n < length l)%nat -> In v (list_set l n v).
Proof.
  induction l as [|x l IH]; intros [|n] v H; cbn in *; try lia; auto.
  right. apply IH. lia.
Qed.

Lemma In_list_set_keep : forall l n v x,
  In x l -> x <> 0 -> nth n l 0 = 0 -> In x (list_set l n v).
Proof.
  induction l as [|y l IH]; intros [|n] v x Hin Hx Hn; cbn in *; auto.
  - destruct Hin as [->|Hin]; [congruence | auto].
  - destruct Hin as [->|Hin]; auto.
Qed.

Lemma count_list_set : forall l n v,
  nth n l 0 = 0 -> (count_nz (list_set l n v) <= S (count_nz l))%nat.
Proof.
  induction l as [|x l IH]; intros [|n] v Hn; cbn [list_set nth] in *.
  - unfold count_nz; cbn; lia.
  - unfold count_nz; cbn; lia.
  - subst x. rewrite !count_nz_cons. cbn. destruct (v =? 0); lia.
  - rewrite !count_nz_cons. specialize (IH n v Hn). destruct (x =? 0); lia.
Qed.

Lemma release_ok : forall a p v a',
  jl_intset_release a p v = Ok a' ->
  el a' = el a /\
  exists w, data a' = list_set (data a) (Z.to_nat p) w /\
            (0 <= v <= jl_max_int a -> w = v).
Proof.
  intros a p v a' H. unfold jl_intset_release, jl_max_int in *.
  destruct (el a); inversion H; subst; (split; [reflexivity|]);
  eexists; (split; [reflexivity|]); intros Hv;
  rewrite Z.land_ones by lia; apply Z.mod_small; cbn; lia.
Qed.

Lemma insert_loop_some : forall n a sz mp orig index iter v a',
  nrows a = sz -> 0 <= index < sz ->
  insert_loop n a sz mp orig index iter v = Ok (Some a') ->
  exists p, 0 <= p < sz /\ nth (Z.to_nat p) (data a) 0 = 0 /\
            jl_intset_release a p v = Ok a'.
Proof.
  induction n as [|n IH]; intros a sz mp orig index iter v a' Hsz Hi H; cbn in H;
    [discriminate|].
  unfold jl_intref in H. destruct (el a) eqn:Eel; cbn [bind] in H; try discriminate;
  (destruct (Z.eqb_spec (nth (Z.to_nat index) (data a) 0) 0) as [Hz|Hz];
   [ destruct (jl_intset_release a index v) as [a''| |] eqn:Er; cbn [bind] in H;
     inversion H; subst; exists index; auto
   | destruct (_ && _); [|discriminate];
     eapply IH; [exact Hsz| |exact H];
     pose proof (land_bound (index + 1) (sz - 1)); lia ]).
Qed.

Lemma insert_loop_ok : forall n a sz mp orig index iter v,
  el a <> AnyType -> exists r, insert_loop n a sz mp orig index iter v = Ok r.
Proof.
  induction n as [|n IH]; intros a sz mp orig index iter v Hel; cbn; [eauto|].
  unfold jl_intref, jl_intset_release.
  destruct (el a) eqn:E; try congruence; cbn [bind];
  (destruct (_ =? 0); [eauto|]); (destruct (_ && _); [apply IH; congruence | eauto]).
Qed.

Lemma insert_loop_not_nofuel : forall n a sz mp orig index iter v,
  insert_loop n a sz mp orig index iter v <> NoFuel.
Proof.
  intros n a sz mp orig index iter v.
  destruct (el a) eqn:E;
    try (destruct (insert_loop_ok n a sz mp orig index iter v) as [r ->];
         [congruence | discriminate]).
  destruct n; cbn; [discriminate|]. unfold jl_intref. rewrite E. discriminate.
Qed.

(** Facts on a successful direct placement. *)
Lemma insert_some : forall a hv v a',
  smallintset_insert_ a hv v = Ok (Some a') ->
  el a' = el a /\ length (data a') = length (data a) /\
  (forall x, In x (data a) -> x <> 0 -> In x (data a')) /\
  (0 <= v <= jl_max_int a -> In v (data a')) /\
  (count_nz (data a') <= S (count_nz (data a)))%nat.
Proof.
  intros a hv v a' H. unfold smallintset_insert_ in H.
  destruct (Z.leb_spec (nrows a) 1) as [_|H1]; [discriminate|].
  apply insert_loop_some in H as [p [Hp [Hz Hr]]];
    [| reflexivity | unfold h2index; pose proof (land_bound hv (nrows a - 1)); lia].
  apply release_ok in Hr as [Hel [w [Hd Hw]]].
  unfold nrows in Hp.
  rewrite Hel, Hd, length_list_set. repeat split; try reflexivity.
  - intros x Hx Hx0. apply In_list_set_keep; assumption.
  - intros Hv. rewrite <- (Hw Hv). apply In_list_set_new. lia.
  - apply count_list_set. exact Hz.
Qed.

Lemma insert_ok : forall a hv v, el a <> AnyType -> exists r, smallintset_insert_ a hv v = Ok r.
Proof.
  intros a hv v Hel. unfold smallintset_insert_.
  destruct (nrows a <=? 1); [eauto|]. apply insert_loop_ok. exact Hel.
Qed.

Lemma insert_not_nofuel : forall a hv v, smallintset_insert_ a hv v <> NoFuel.
Proof.
  intros a hv v. unfold smallintset_insert_.
  destruct (nrows a <=? 1); [discriminate|]. apply insert_loop_not_nofuel.
Qed.

Lemma jl_max_int_el : forall a b, el a = el b -> jl_max_int a = jl_max_int b.
Proof. intros a b H. unfold jl_max_int. rewrite H. reflexivity. Qed.

Lemma intref_ok : forall a i,
  el a <> AnyType -> jl_intref a i = Ok (nth (Z.to_nat i) (data a) 0).
Proof. intros a i H. unfold jl_intref. destruct (el a); congruence. Qed.

Lemma alloc_ok : forall np len a,
  jl_alloc_int_1d np len = Ok a ->
  np < jl_max_int a /\ data a = repeat 0 (Z.to_nat len) /\ el a <> AnyType.
Proof.
  intros np len a H. unfold jl_alloc_int_1d in H.
  destruct (Z.ltb_spec np 255); [|destruct (Z.ltb_spec np 65535);
    [|destruct (Z.ltb_spec np 2147483647)]];
  inversion H; subst; cbn; (split; [lia|]); split; congruence.
Qed.

Lemma fold_max_acc : forall l acc, acc <= fold_left Z.max l acc.
Proof.
  induction l as [|x l IH]; intros acc; cbn; [lia|].
  specialize (IH (Z.max acc x)). lia.
Qed.

Lemma fold_max_in : forall l acc v, In v l -> v <= fold_left Z.max l acc.
Proof.
  induction l as [|x l IH]; intros acc v H; cbn in *; [contradiction|].
  destruct H as [->|H]; [|apply IH; exact H].
  pose proof (fold_max_acc l (Z.max acc v)). lia.
Qed.

Lemma skipn_cons_nth : forall (l : list Z) i,
  (i < length l)%nat -> skipn i l = nth i l 0 :: skipn (S i) l.
Proof.
  induction l as [|x l IH]; intros [|i] H; cbn in *; try lia; [reflexivity|].
  apply IH. lia.
Qed.

Section Rebuild.

Variable hash : Z -> Z.

(** Facts on a completed rebuild. *)
Lemma build_some : forall slots t t',
  build_in_order hash slots t = Ok (Some t') ->
  el t' = el t /\ length (data t') = length (data t) /\
  (forall x, In x (data t) -> x <> 0 -> In x (data t')) /\
  (forall v, In v slots -> v <> 0 -> 0 <= v <= jl_max_int t -> In v (data t')) /\
  (count_nz (data t') <= count_nz (data t) + count_nz slots)%nat.
Proof.
  induction slots as [|v vs IH]; intros t t' H; cbn [build_in_order] in H.
  - inversion H; subst. repeat split; auto. intros v []. lia.
  - rewrite count_nz_cons. destruct (Z.eqb_spec v 0) as [Hv|Hv].
    + destruct (IH t t' H) as [H1 [H2 [H3 [H4 H5]]]].
      repeat split; auto.
      intros v' [<-|Hin] Hv' Hr; [congruence | auto].
    + destruct (smallintset_insert_ t (hash (v - 1)) v) as [[t1|]| |] eqn:Ei;
        cbn [bind] in H; try discriminate.
      destruct (insert_some _ _ _ _ Ei) as [I1 [I2 [I3 [I4 I5]]]].
      destruct (IH t1 t' H) as [H1 [H2 [H3 [H4 H5]]]].
      rewrite (jl_max_int_el t1 t I1) in H4.
      repeat split; try congruence; try lia.
      * intros x Hx Hx0. auto.
      * intros v' [<-|Hin] Hv' Hr; auto.
Qed.

Lemma build_ok : forall slots t,
  el t <> AnyType -> exists r, build_in_order hash slots t = Ok r.
Proof.
  induction slots as [|v vs IH]; intros t Hel; cbn; [eauto|].
  destruct (v =? 0); [auto|].
  destruct (insert_ok t (hash (v - 1)) v Hel) as [[t1|] Ei]; rewrite Ei; cbn [bind]; [|eauto].
  apply IH. destruct (insert_some _ _ _ _ Ei) as [I1 _]. congruence.
Qed.

Lemma build_not_nofuel : forall slots t, build_in_order hash slots t <> NoFuel.
Proof.
  induction slots as [|v vs IH]; intros t; cbn; [discriminate|].
  destruct (v =? 0); [auto|].
  pose proof (insert_not_nofuel t (hash (v - 1)) v).
  destruct (smallintset_insert_ t _ _) as [[t1|]| |]; cbn [bind]; auto; discriminate.
Qed.

Lemma rehash_max_skipn : forall a k i np,
  el a <> AnyType -> (i + k = length (data a))%nat ->
  rehash_max k a (Z.of_nat i) np = Ok (fold_left Z.max (skipn i (data a)) np).
Proof.
  intros a k. induction k as [|k IH]; intros i np Hel Hk; cbn [rehash_max].
  - replace i with (length (data a)) by lia. rewrite skipn_all. reflexivity.
  - rewrite intref_ok by exact Hel. cbn [bind]. rewrite Nat2Z.id.
    replace (Z.of_nat i + 1) with (Z.of_nat (S i)) by lia.
    rewrite IH by (auto; lia). rewrite (skipn_cons_nth _ i) by lia. cbn [fold_left].
    f_equal. f_equal. destruct (Z.gtb_spec (nth i (data a) 0) np); lia.
Qed.

Lemma rehash_fill_skipn : forall a k i t,
  el a <> AnyType -> (i + k = length (data a))%nat ->
  rehash_fill hash k a t (Z.of_nat i) = build_in_order hash (skipn i (data a)) t.
Proof.
  intros a k. induction k as [|k IH]; intros i t Hel Hk; cbn [rehash_fill].
  - replace i with (length (data a)) by lia. rewrite skipn_all. reflexivity.
  - rewrite intref_ok by exact Hel. cbn [bind]. rewrite Nat2Z.id.
    rewrite (skipn_cons_nth _ i) by lia. cbn [build_in_order].
    replace (Z.of_nat i + 1) with (Z.of_nat (S i)) by lia.
    destruct (nth i (data a) 0 =? 0); cbn [negb]; [apply IH; auto; lia|].
    destruct (smallintset_insert_ t _ _) as [[t1|]| |]; cbn [bind]; try reflexivity.
    apply IH; auto; lia.
Qed.

Lemma rehash_max_fold : forall a np,
  el a <> AnyType \/ data a = [] ->
  rehash_max (length (data a)) a 0 np = Ok (fold_left Z.max (data a) np).
Proof.
  intros a np [Hel|Hd]; [|rewrite Hd; reflexivity].
  apply (rehash_max_skipn a _ 0); [exact Hel | lia].
Qed.

Lemma rehash_fill_build : forall a t,
  el a <> AnyType \/ data a = [] ->
  rehash_fill hash (length (data a)) a t 0 = build_in_order hash (data a) t.
Proof.
  intros a t [Hel|Hd]; [|rewrite Hd; reflexivity].
  apply (rehash_fill_skipn a _ 0); [exact Hel | lia].
Qed.

Lemma rehash_max_any : forall a np,
  el a = AnyType -> data a <> [] -> rehash_max (length (data a)) a 0 np = Abort.
Proof.
  intros a np Hel Hd. destruct (data a) eqn:E; [congruence|].
  cbn. unfold jl_intref. rewrite Hel. reflexivity.
Qed.

Lemma rehash_readable : forall fuel a newsz np,
  smallintset_rehash hash fuel a newsz np <> Abort ->
  el a <> AnyType \/ data a = [].
Proof.
  intros fuel a newsz np H.
  destruct (el a) eqn:E; try (left; discriminate).
  destruct (data a) eqn:Ed; [right; reflexivity|].
  exfalso. apply H. unfold smallintset_rehash.
  rewrite rehash_max_any by congruence. reflexivity.
Qed.

(** The retry loop: the attempts before the last failed, the last
    succeeded, each at twice the previous capacity. *)
Lemma rehash_retry_ok : forall fuel a np newsz t,
  rehash_retry hash fuel a np newsz = Ok t ->
  exists k : nat,
    (forall j : nat, (j < k)%nat -> exists nj,
        jl_alloc_int_1d np (newsz * 2 ^ Z.of_nat j) = Ok nj /\
        rehash_fill hash (length (data a)) a nj 0 = Ok None) /\
    exists nk, jl_alloc_int_1d np (newsz * 2 ^ Z.of_nat k) = Ok nk /\
        rehash_fill hash (length (data a)) a nk 0 = Ok (Some t).
Proof.
  induction fuel as [|fuel IH]; intros a np newsz t H; cbn [rehash_retry] in H;
    [discriminate|].
  destruct (jl_alloc_int_1d np newsz) as [newa| |] eqn:Ea; cbn [bind] in H; try discriminate.
  destruct (rehash_fill hash (length (data a)) a newa 0) as [[t1|]| |] eqn:Ef;
    cbn [bind] in H; try discriminate.
  - inversion H; subst. exists 0%nat. split; [intros j Hj; lia|].
    exists newa. rewrite Z.mul_1_r. auto.
  - rewrite Z.shiftl_mul_pow2 in H by lia.
    destruct (IH a np (newsz * 2 ^ 1) t H) as [k [Hbefore Hlast]].
    exists (S k). split.
    + intros [|j] Hj.
      * exists newa. rewrite Z.mul_1_r. auto.
      * destruct (Hbefore j ltac:(lia)) as [nj Hnj].
        exists nj. replace (newsz * 2 ^ Z.of_nat (S j)) with (newsz * 2 ^ 1 * 2 ^ Z.of_nat j)
          by (rewrite Nat2Z.inj_succ, Z.pow_succ_r by lia; lia).
        exact Hnj.
    + replace (newsz * 2 ^ Z.of_nat (S k)) with (newsz * 2 ^ 1 * 2 ^ Z.of_nat k)
        by (rewrite Nat2Z.inj_succ, Z.pow_succ_r by lia; lia).
      exact Hlast.
Qed.

End Rebuild.

(** ** Rehash *)

(** C4: a rehash that publishes the table [t] has tried the capacities
    [newsz], [2 newsz], ..., [2^k newsz]: each attempt starts from a fresh
    zero-filled table and re-inserts the old slots in slot-index order, each
    with the hash of its decoded index ([build_in_order]); every attempt but
    the last failed a placement and was dropped, the last one is [t]; and
    every non-zero entry of the old table is a slot of [t]. *)
Theorem smallintset_rehash_rebuilds : forall hash fuel a newsz np t,
  wf_array a ->
  smallintset_rehash hash fuel a newsz np = Ok t ->
  exists k : nat,
    (forall j : nat, (j < k)%nat -> exists nj,
        jl_alloc_int_1d (fold_left Z.max (data a) np) (newsz * 2 ^ Z.of_nat j) = Ok nj /\
        build_in_order hash (data a) nj = Ok None) /\
    (exists nk,
        jl_alloc_int_1d (fold_left Z.max (data a) np) (newsz * 2 ^ Z.of_nat k) = Ok nk /\
        build_in_order hash (data a) nk = Ok (Some t)) /\
    (forall v, In v (data a) -> v <> 0 -> In v (data t)).
Proof.
  intros hash fuel a newsz np t Hwf H.
  assert (Hr : el a <> AnyType \/ data a = [])
    by (apply (rehash_readable hash fuel a newsz np); congruence).
  unfold smallintset_rehash in H. rewrite rehash_max_fold in H by exact Hr. cbn [bind] in H.
  destruct (rehash_retry_ok hash _ _ _ _ _ H) as [k [Hbefore [nk [Hk Hfill]]]].
  rewrite rehash_fill_build in Hfill by exact Hr.
  exists k. split; [|split].
  - intros j Hj. destruct (Hbefore j Hj) as [nj [H1 H2]].
    rewrite rehash_fill_build in H2 by exact Hr. eauto.
  - eauto.
  - intros v Hin Hv.
    destruct (build_some hash _ _ _ Hfill) as [_ [_ [_ [H4 _]]]].
    apply H4; auto. destruct (alloc_ok _ _ _ Hk) as [Hlt _].
    pose proof (fold_max_in (data a) np v Hin). specialize (Hwf v Hin). lia.
Qed.

Lemma smallintset_rehash_rebuilds_witness :
  wf_array (mk_array UInt8 [0; 1; 2; 0]) /\
  smallintset_rehash (fun i => i) 3 (mk_array UInt8 [0; 1; 2; 0]) 4 0
    = Ok (mk_array UInt8 [1; 2; 0; 0]) /\
  In 2 [1; 2; 0; 0].
Proof.
  assert (Hwf : wf_array (mk_array UInt8 [0; 1; 2; 0]))
    by (intros x Hx; cbn in Hx; intuition (subst; cbn; lia)).
  assert (Heq : smallintset_rehash (fun i => i) 3 (mk_array UInt8 [0; 1; 2; 0]) 4 0
                = Ok (mk_array UInt8 [1; 2; 0; 0])) by reflexivity.
  split; [exact Hwf|]. split; [exact Heq|].
  destruct (smallintset_rehash_rebuilds (fun i => i) 3 (mk_array UInt8 [0; 1; 2; 0]) 4 0
              (mk_array UInt8 [1; 2; 0; 0]) Hwf Heq) as [_ [_ [_ Hin]]].
  apply (Hin 2); cbn; [tauto | discriminate].
Defined.

(** ** The domain boundary *)

Lemma alloc_total : forall np len, np < 2147483647 -> exists a, jl_alloc_int_1d np len = Ok a.
Proof.
  intros np len H. unfold jl_alloc_int_1d.
  destruct (np <? 255); [eauto|]. destruct (np <? 65535); [eauto|].
  destruct (Z.ltb_spec np 2147483647); [eauto | lia].
Qed.

(** A rehash whose required value [np'] (the largest of [np] and the old
    slots) is at least [2^31 - 1] aborts at its first allocation; a rehash
    with [np' < 2^31 - 1] never aborts. *)
Lemma rehash_domain : forall hash fuel a newsz np,
  el a <> AnyType \/ data a = [] ->
  (2147483647 <= fold_left Z.max (data a) np ->
     smallintset_rehash hash (S fuel) a newsz np = Abort) /\
  (fold_left Z.max (data a) np < 2147483647 ->
     smallintset_rehash hash fuel a newsz np <> Abort).
Proof.
  intros hash fuel a newsz np Hr. unfold smallintset_rehash.
  rewrite rehash_max_fold by exact Hr. cbn [bind].
  set (np' := fold_left Z.max (data a) np). split.
  - intros H. cbn [rehash_retry]. unfold jl_alloc_int_1d.
    destruct (Z.ltb_spec np' 255); [lia|]. destruct (Z.ltb_spec np' 65535); [lia|].
    destruct (Z.ltb_spec np' 2147483647); [lia|]. reflexivity.
  - intros H. revert newsz. induction fuel as [|fuel IH]; intros newsz; cbn [rehash_retry];
      [discriminate|].
    destruct (alloc_total np' newsz H) as [newa Ea]. rewrite Ea. cbn [bind].
    rewrite rehash_fill_build by exact Hr.
    destruct (alloc_ok _ _ _ Ea) as [_ [_ Hel]].
    destruct (build_ok hash (data a) newa Hel) as [[t|] ->]; cbn [bind];
      [discriminate | apply IH].
Qed.


(** ** Capacities *)

Lemma count_nz_repeat0 : forall n, count_nz (repeat 0 n) = 0%nat.
Proof. induction n as [|n IH]; [reflexivity|]. cbn [repeat]. rewrite count_nz_cons. exact IH. Qed.

Lemma insert_nrows : forall a hv v a',
  smallintset_insert_ a hv v = Ok (Some a') -> nrows a' = nrows a.
Proof.
  intros a hv v a' H. destruct (insert_some _ _ _ _ H) as [_ [H2 _]].
  unfold nrows. rewrite H2. reflexivity.
Qed.

(** What a successful rehash publishes: a readable table of capacity
    [newsz * 2^k] with no more entries than the old one. *)
Lemma rehash_facts : forall hash fuel a newsz np t,
  0 <= newsz ->
  smallintset_rehash hash fuel a newsz np = Ok t ->
  el t <> AnyType /\
  (count_nz (data t) <= count_nz (data a))%nat /\
  exists k : nat, nrows t = newsz * 2 ^ Z.of_nat k.
Proof.
  intros hash fuel a newsz np t Hn H.
  assert (Hr : el a <> AnyType \/ data a = [])
    by (apply (rehash_readable hash fuel a newsz np); congruence).
  unfold smallintset_rehash in H. rewrite rehash_max_fold in H by exact Hr. cbn [bind] in H.
  destruct (rehash_retry_ok hash _ _ _ _ _ H) as [k [_ [nk [Hk Hfill]]]].
  rewrite rehash_fill_build in Hfill by exact Hr.
  destruct (build_some hash _ _ _ Hfill) as [H1 [H2 [_ [_ H5]]]].
  destruct (alloc_ok _ _ _ Hk) as [_ [Hd Hel]].
  rewrite Hd, count_nz_repeat0 in H5.
  split; [congruence|]. split; [lia|].
  exists k. unfold nrows. rewrite H2, Hd, repeat_length.
  rewrite Z2Nat.id; [reflexivity|].
  apply Z.mul_nonneg_nonneg; [exact Hn | apply Z.pow_nonneg; lia].
Qed.

Section Sizes.

Variable hash : Z -> Z.
Variable HT : Z.

(** Tables of capacity 0 or of at least [HT_N_INLINE] slots. *)
Definition size_ok (t : jl_array) : Prop := nrows t = 0 \/ HT <= nrows t.

Lemma nrows_nonneg : forall t, 0 <= nrows t.
Proof. intros t. unfold nrows. lia. Qed.

Lemma rehash_size_ok : forall fuel a newsz np t,
  0 <= newsz -> (newsz = 0 \/ HT <= newsz) ->
  smallintset_rehash hash fuel a newsz np = Ok t -> size_ok t.
Proof.
  intros fuel a newsz np t Hn Hs H.
  destruct (rehash_facts hash fuel a newsz np t Hn H) as [_ [_ [k Hk]]].
  unfold size_ok. rewrite Hk. pose proof (Z.pow_pos_nonneg 2 (Z.of_nat k)).
  destruct Hs as [->|Hs]; [left; lia | right; nia].
Qed.

Lemma grow_size_ok : forall sz, 0 <= sz ->
  0 <= grow_size HT sz /\ HT <= grow_size HT sz.
Proof.
  intros sz Hsz. rewrite grow_size_eq.
  destruct (Z.ltb_spec sz HT); [lia|]. destruct (_ || _); lia.
Qed.

Lemma insert_retry_size_ok : forall fuel a val pub a' pub',
  size_ok a -> Forall size_ok pub ->
  insert_retry hash HT fuel a val pub = Ok (a', pub') ->
  size_ok a' /\ Forall size_ok pub'.
Proof.
  induction fuel as [|fuel IH]; intros a val pub a' pub' Ha Hp H; cbn [insert_retry] in H;
    [discriminate|].
  destruct (smallintset_insert_ a (hash val) (val + 1)) as [[a1|]| |] eqn:Ei;
    cbn [bind] in H; try discriminate.
  - inversion H; subst. split; [|exact Hp].
    unfold size_ok. rewrite (insert_nrows _ _ _ _ Ei). exact Ha.
  - destruct (smallintset_rehash hash (S fuel) a (grow_size HT (nrows a)) 0) as [a2| |] eqn:Er;
      cbn [bind] in H; try discriminate.
    destruct (grow_size_ok (nrows a) (nrows_nonneg a)) as [G1 G2].
    pose proof (rehash_size_ok _ _ _ _ _ G1 (or_intror G2) Er) as Ha2.
    apply (IH a2 val (pub ++ [a2])); auto.
    apply Forall_app. split; auto.
Qed.

Lemma insert_size_ok : forall fuel a val a' pub,
  size_ok a ->
  jl_smallintset_insert hash HT fuel a val = Ok (a', pub) ->
  size_ok a' /\ Forall size_ok pub.
Proof.
  intros fuel a val a' pub Ha H. unfold jl_smallintset_insert in H.
  destruct (val + 1 >? jl_max_int a).
  - destruct (smallintset_rehash hash fuel a (nrows a) (val + 1)) as [a1| |] eqn:Er;
      cbn [bind] in H; try discriminate.
    pose proof (rehash_size_ok _ _ _ _ _ (nrows_nonneg a) Ha Er) as Ha1.
    apply (insert_retry_size_ok fuel a1 val [a1]); auto.
  - apply (insert_retry_size_ok fuel a val []); auto.
Qed.

End Sizes.

(** C10: direct placement into a table of capacity 0 or 1 fails and
    changes nothing; from such a capacity the growth step goes to
    [HT_N_INLINE] (when it exceeds 1); and insert keeps every table it
    leaves current or publishes at capacity 0 or at least [HT_N_INLINE],
    so that every table with a non-zero slot has at least [HT_N_INLINE]
    slots. *)
Theorem small_tables_never_written : forall hash HT,
  (forall a hv v, nrows a <= 1 -> smallintset_insert_ a hv v = Ok None) /\
  (1 < HT -> forall sz, 0 <= sz <= 1 -> grow_size HT sz = HT) /\
  (forall fuel a val a' pub,
     nrows a = 0 \/ HT <= nrows a ->
     jl_smallintset_insert hash HT fuel a val = Ok (a', pub) ->
     forall t, In t (a' :: pub) ->
       (nrows t = 0 \/ HT <= nrows t) /\
       ((exists x, In x (data t) /\ x <> 0) -> HT <= nrows t)).
Proof.
  intros hash HT. split; [|split].
  - intros a hv v H. unfold smallintset_insert_.
    destruct (Z.leb_spec (nrows a) 1); [reflexivity | lia].
  - intros H sz Hsz. rewrite grow_size_eq. destruct (Z.ltb_spec sz HT); lia.
  - intros fuel a val a' pub Ha H t Ht.
    destruct (insert_size_ok hash HT fuel a val a' pub Ha H) as [H1 H2].
    assert (Hs : size_ok HT t).
    { destruct Ht as [<-|Ht]; [exact H1|]. rewrite Forall_forall in H2. auto. }
    split; [exact Hs|]. intros [x [Hx Hx0]].
    destruct Hs as [H0|H0]; [|exact H0].
    unfold nrows in H0. destruct (data t); [contradiction | cbn in H0; lia].
Qed.

Lemma small_tables_never_written_witness :
  1 < 32 /\ grow_size 32 1 = 32 /\
  (exists a' pub, jl_smallintset_insert ex_hash 32 4 empty_cache 5 = Ok (a', pub) /\
     32 <= nrows a').
Proof.
  destruct (small_tables_never_written ex_hash 32) as [_ [H2 H3]].
  split; [lia|]. split; [apply H2; lia|].
  assert (Hrun : jl_smallintset_insert ex_hash 32 4 empty_cache 5 =
                 Ok (mk_array UInt8 (list_set (repeat 0 32) 0 6),
                     [mk_array UInt8 []; mk_array UInt8 (repeat 0 32)])) by reflexivity.
  do 2 eexists. split; [exact Hrun|].
  apply (proj2 (H3 4%nat empty_cache 5 _ _ (or_introl eq_refl) Hrun _ (or_introl eq_refl))).
  exists 6. split; [cbn; tauto | discriminate].
Defined.

(** ** Placement succeeds in a sparse enough table *)

Lemma count_nz_positions_from : forall l pre,
  length (filter (fun i => negb (nth i (pre ++ l) 0 =? 0)) (seq (length pre) (length l)))
  = count_nz l.
Proof.
  induction l as [|x l IH]; intros pre; [reflexivity|].
  cbn [length seq filter]. rewrite nth_middle, count_nz_cons.
  replace (pre ++ x :: l) with ((pre ++ [x]) ++ l) by (rewrite <- app_assoc; reflexivity).
  replace (S (length pre)) with (length (pre ++ [x])) by (rewrite length_app; cbn; lia).
  destruct (x =? 0); cbn [negb length]; rewrite IH; reflexivity.
Qed.

Lemma count_nz_ge : forall (l : list Z) (ns : list nat),
  NoDup ns -> (forall i, In i ns -> (i < length l)%nat /\ nth i l 0 <> 0) ->
  (length ns <= count_nz l)%nat.
Proof.
  intros l ns Hnd Hin.
  rewrite <- (count_nz_positions_from l []). cbn [length app].
  apply NoDup_incl_length; [exact Hnd|].
  intros i Hi. destruct (Hin i Hi) as [H1 H2]. apply filter_In. split.
  - apply in_seq. lia.
  - destruct (Z.eqb_spec (nth i l 0) 0); [contradiction | reflexivity].
Qed.

Lemma mod_shift_inj : forall sz s x y,
  0 < sz -> 0 <= x < sz -> 0 <= y < sz ->
  (s + x) mod sz = (s + y) mod sz -> x = y.
Proof.
  intros sz s x y Hsz Hx Hy H.
  pose proof (Z.div_mod (s + x) sz ltac:(lia)) as E1.
  pose proof (Z.div_mod (s + y) sz ltac:(lia)) as E2.
  rewrite H in E1.
  assert (Hq : x - y = sz * ((s + x) / sz - (s + y) / sz)) by lia.
  destruct (Z.lt_trichotomy ((s + x) / sz) ((s + y) / sz)) as [Hl|[He|Hl]]; nia.
Qed.

Lemma place_first_none : forall a ps v,
  el a <> AnyType -> place_first a ps v = Ok None ->
  forall p, In p ps -> nth (Z.to_nat p) (data a) 0 <> 0.
Proof.
  intros a ps v Hel. induction ps as [|q ps IH]; intros H p Hp; [contradiction|].
  cbn [place_first] in H. rewrite intref_ok in H by exact Hel. cbn [bind] in H.
  destruct (Z.eqb_spec (nth (Z.to_nat q) (data a) 0) 0) as [Hz|Hz].
  - destruct (jl_intset_release a q v); discriminate.
  - destruct Hp as [<-|Hp]; [exact Hz | exact (IH H p Hp)].
Qed.

(** Direct placement succeeds when fewer slots are occupied than the
    probe sequence visits. *)
Lemma insert_succeeds : forall a hv v,
  el a <> AnyType -> is_pow2 (nrows a) -> 2 <= nrows a ->
  (count_nz (data a) < Z.to_nat (Z.min (max_probe (nrows a) + 1) (nrows a)))%nat ->
  exists a', smallintset_insert_ a hv v = Ok (Some a').
Proof.
  intros a hv v Hel Hp H2 Hc.
  destruct (insert_ok a hv v Hel) as [[a'|] E]; [eauto|exfalso].
  rewrite smallintset_insert_visits, visits_eq in E by assumption.
  set (sz := nrows a) in *. set (L := Z.to_nat (Z.min (max_probe sz + 1) sz)) in *.
  pose proof (place_first_none a _ v Hel E) as Hnz.
  assert (Hpos : 0 < sz) by (apply pow2_pos; exact Hp).
  assert (HL : (L <= Z.to_nat sz)%nat) by (subst L; lia).
  assert (Hs : 0 <= hv mod sz < sz) by (apply Z.mod_pos_bound; lia).
  set (f := fun i : nat => Z.to_nat ((hv mod sz + Z.of_nat i) mod sz)).
  assert (Hle : (length (map f (seq 0 L)) <= count_nz (data a))%nat).
  { apply count_nz_ge.
    - apply NoDup_map_NoDup_ForallPairs; [|apply seq_NoDup].
      intros x y Hx Hy Hf. apply in_seq in Hx, Hy. unfold f in Hf.
      assert (0 <= (hv mod sz + Z.of_nat x) mod sz < sz) by (apply Z.mod_pos_bound; lia).
      assert (0 <= (hv mod sz + Z.of_nat y) mod sz < sz) by (apply Z.mod_pos_bound; lia).
      apply Z2Nat.inj in Hf; try lia.
      apply mod_shift_inj in Hf; lia.
    - intros i Hi. apply in_map_iff in Hi as [x [<- Hx]]. unfold f.
      assert (0 <= (hv mod sz + Z.of_nat x) mod sz < sz) by (apply Z.mod_pos_bound; lia).
      split.
      + unfold sz, nrows in *. lia.
      + apply Hnz. apply (in_map (fun i : nat => (hv mod sz + Z.of_nat i) mod sz)).
        exact Hx. }
  rewrite length_map, length_seq in Hle. lia.
Qed.

Section Rebuild2.

Variable hash : Z -> Z.

(** The rebuild succeeds when the table stays sparse enough. *)
Lemma build_succeeds : forall slots t,
  el t <> AnyType -> is_pow2 (nrows t) -> 2 <= nrows t ->
  (count_nz (data t) + count_nz slots <= Z.to_nat (Z.min (max_probe (nrows t) + 1) (nrows t)))%nat ->
  exists t', build_in_order hash slots t = Ok (Some t').
Proof.
  induction slots as [|v vs IH]; intros t Hel Hp H2 Hc; cbn [build_in_order]; [eauto|].
  rewrite count_nz_cons in Hc.
  destruct (Z.eqb_spec v 0) as [Hv|Hv]; [apply IH; auto|].
  destruct (insert_succeeds t (hash (v - 1)) v Hel Hp H2 ltac:(lia)) as [t1 E].
  rewrite E. cbn [bind].
  destruct (insert_some _ _ _ _ E) as [I1 [I2 [_ [_ I5]]]].
  assert (Hn : nrows t1 = nrows t) by (unfold nrows; rewrite I2; reflexivity).
  apply IH; try congruence; rewrite Hn; try assumption. lia.
Qed.

End Rebuild2.

(** ** Termination *)

Lemma pow2_mul : forall x j, is_pow2 x -> is_pow2 (x * 2 ^ Z.of_nat j).
Proof.
  intros x j [k [Hk ->]]. exists (k + Z.of_nat j). split; [lia|].
  rewrite Z.pow_add_r; lia.
Qed.

Lemma pow2_double_le : forall x y, is_pow2 x -> is_pow2 y -> x < y -> 2 * x <= y.
Proof.
  intros x y [a [Ha ->]] [b [Hb ->]] H.
  apply Z.pow_lt_mono_r_iff in H; try lia.
  replace (2 * 2 ^ a) with (2 ^ (a + 1)) by (rewrite Z.pow_add_r; lia).
  apply Z.pow_le_mono_r; lia.
Qed.

Lemma probe_len_big : forall N n,
  1024 <= N -> 64 * (Z.of_nat n + 1) <= N ->
  (S n <= Z.to_nat (Z.min (max_probe N + 1) N))%nat.
Proof.
  intros N n H1 H2. rewrite max_probe_eq.
  destruct (Z.leb_spec N 1024); [lia|].
  assert (Z.of_nat n + 1 <= N / 64) by (apply Z.div_le_lower_bound; lia).
  lia.
Qed.

Lemma alloc_nrows : forall np len a,
  0 <= len -> jl_alloc_int_1d np len = Ok a -> nrows a = len.
Proof.
  intros np len a Hl H. destruct (alloc_ok _ _ _ H) as [_ [Hd _]].
  unfold nrows. rewrite Hd, repeat_length. lia.
Qed.

Lemma alloc_not_nofuel : forall np len, jl_alloc_int_1d np len <> NoFuel.
Proof.
  intros np len. unfold jl_alloc_int_1d.
  destruct (np <? 255); [|destruct (np <? 65535); [|destruct (np <? 2147483647)]];
    discriminate.
Qed.

(** ** Probing a table of any capacity

    Write the capacity as [m * 2^t] with [m] odd.  The mask [m * 2^t - 1]
    keeps the low [t] bits of an index and a fixed high part [G]; the probe
    steps through the [2^t] slots [G * 2^t + x] and returns to its start
    after [2^t] steps. *)

Lemma testbit_split : forall a r t n, 0 <= t -> 0 <= r < 2 ^ t -> 0 <= n ->
  Z.testbit (a * 2 ^ t + r) n = if n <? t then Z.testbit r n else Z.testbit a (n - t).
Proof.
  intros a r t n Ht Hr Hn. pose proof (Z.pow_pos_nonneg 2 t ltac:(lia) Ht) as HB.
  destruct (Z.ltb_spec n t) as [Hl|Hl].
  - assert (E : (a * 2 ^ t + r) mod 2 ^ t = r)
      by (rewrite Z.add_comm, Z.mod_add by lia; apply Z.mod_small; lia).
    rewrite <- (Z.mod_pow2_bits_low (a * 2 ^ t + r) t n Hl), E. reflexivity.
  - assert (E : (a * 2 ^ t + r) / 2 ^ t = a)
      by (rewrite Z.div_add_l by lia; rewrite Z.div_small by lia; lia).
    replace (Z.testbit (a * 2 ^ t + r) n) with (Z.testbit (Z.shiftr (a * 2 ^ t + r) t) (n - t))
      by (rewrite Z.shiftr_spec by lia; f_equal; lia).
    rewrite Z.shiftr_div_pow2, E by lia. reflexivity.
Qed.

Lemma land_split : forall a b r s t, 0 <= t -> 0 <= r < 2 ^ t -> 0 <= s < 2 ^ t ->
  Z.land (a * 2 ^ t + r) (b * 2 ^ t + s) = Z.land a b * 2 ^ t + Z.land r s.
Proof.
  intros a b r s t Ht Hr Hs.
  assert (Hrs : 0 <= Z.land r s < 2 ^ t) by (pose proof (land_bound r s ltac:(lia)); lia).
  apply Z.bits_inj'. intros n Hn.
  rewrite Z.land_spec, !testbit_split by assumption.
  destruct (n <? t); rewrite Z.land_spec; reflexivity.
Qed.

Lemma block_land : forall y m t, 0 <= t -> 0 < m ->
  Z.land y (m * 2 ^ t - 1) = Z.land (y / 2 ^ t) (m - 1) * 2 ^ t + y mod 2 ^ t.
Proof.
  intros y m t Ht Hm. pose proof (Z.pow_pos_nonneg 2 t ltac:(lia) Ht) as HB.
  replace (m * 2 ^ t - 1) with ((m - 1) * 2 ^ t + (2 ^ t - 1)) by lia.
  assert (Ey : y = y / 2 ^ t * 2 ^ t + y mod 2 ^ t)
    by (rewrite Z.mul_comm; apply Z.div_mod; lia).
  rewrite Ey at 1.
  assert (Hy : 0 <= y mod 2 ^ t < 2 ^ t) by (apply Z.mod_pos_bound; lia).
  rewrite land_split by lia. rewrite land_pow2, Z.mod_mod by lia. reflexivity.
Qed.

Lemma divmod_split : forall q r b, 0 <= r < b -> (q * b + r) / b = q /\ (q * b + r) mod b = r.
Proof.
  intros q r b Hr. split.
  - rewrite Z.div_add_l by lia. rewrite Z.div_small by lia. lia.
  - rewrite Z.add_comm, Z.mod_add by lia. apply Z.mod_small. lia.
Qed.

(** One probe step inside the block of [G]. *)
Lemma block_next : forall G x m t, 0 <= t -> 0 < m -> Z.odd m = true ->
  Z.land G (m - 1) = G -> 0 <= x < 2 ^ t ->
  Z.land (G * 2 ^ t + x + 1) (m * 2 ^ t - 1) = G * 2 ^ t + (x + 1) mod 2 ^ t.
Proof.
  intros G x m t Ht Hm Ho HG Hx. pose proof (Z.pow_pos_nonneg 2 t ltac:(lia) Ht) as HB.
  rewrite block_land by lia.
  assert (Hm2 : m mod 2 = 1) by (rewrite Zodd_mod in Ho; apply Z.eqb_eq; exact Ho).
  assert (Hm1 : Z.odd (m - 1) = false)
    by (rewrite Zodd_mod; apply Z.eqb_neq; Z.div_mod_to_equations; lia).
  assert (HGe : Z.odd G = false)
    by (rewrite <- HG, <- Z.bit0_odd, Z.land_spec, !Z.bit0_odd, Hm1; apply Bool.andb_false_r).
  assert (HG2 : G mod 2 = 0)
    by (rewrite Zodd_mod in HGe; apply Z.eqb_neq in HGe; Z.div_mod_to_equations; lia).
  destruct (Z.eq_dec (x + 1) (2 ^ t)) as [Ex|Ex].
  - replace (G * 2 ^ t + x + 1) with ((G + 1) * 2 ^ t + 0) by lia.
    destruct (divmod_split (G + 1) 0 (2 ^ t) ltac:(lia)) as [-> ->].
    rewrite Ex, Z.mod_same by lia.
    assert (E1 : Z.land (G + 1) (m - 1) = Z.land (G / 2) ((m - 1) / 2) * 2 ^ 1 + Z.land 1 0).
    { rewrite <- land_split by (cbn; lia). f_equal; cbn; Z.div_mod_to_equations; lia. }
    assert (E2 : Z.land G (m - 1) = Z.land (G / 2) ((m - 1) / 2) * 2 ^ 1 + Z.land 0 0).
    { rewrite <- land_split by (cbn; lia). f_equal; cbn; Z.div_mod_to_equations; lia. }
    assert (E3 : Z.land (G + 1) (m - 1) = Z.land G (m - 1)) by (rewrite E1, E2; reflexivity).
    rewrite E3, HG. reflexivity.
  - replace (G * 2 ^ t + x + 1) with (G * 2 ^ t + (x + 1)) by lia.
    destruct (divmod_split G (x + 1) (2 ^ t) ltac:(lia)) as [-> ->].
    rewrite HG, (Z.mod_small (x + 1)) by lia. reflexivity.
Qed.

Lemma gen_next_index : forall m t G x0 (j : nat),
  0 <= t -> 0 < m -> Z.odd m = true -> Z.land G (m - 1) = G ->
  Z.land (G * 2 ^ t + (x0 + Z.of_nat j) mod 2 ^ t + 1) (m * 2 ^ t - 1)
  = G * 2 ^ t + (x0 + Z.of_nat (S j)) mod 2 ^ t.
Proof.
  intros m t G x0 j Ht Hm Ho HG. pose proof (Z.pow_pos_nonneg 2 t ltac:(lia) Ht) as HB.
  assert (Hx : 0 <= (x0 + Z.of_nat j) mod 2 ^ t < 2 ^ t) by (apply Z.mod_pos_bound; lia).
  rewrite block_next by assumption.
  rewrite Z.add_mod_idemp_l by lia.
  replace (x0 + Z.of_nat (S j)) with (x0 + Z.of_nat j + 1) by lia. reflexivity.
Qed.

Lemma gen_continue : forall t G x0 mp (j : nat),
  0 <= t -> 0 <= x0 < 2 ^ t -> 0 <= mp ->
  (S j <= Z.to_nat (Z.min (mp + 1) (2 ^ t)))%nat ->
  ((Z.of_nat j + 1 <=? mp) &&
   negb (G * 2 ^ t + (x0 + Z.of_nat (S j)) mod 2 ^ t =? G * 2 ^ t + x0))
  = (S j <? Z.to_nat (Z.min (mp + 1) (2 ^ t)))%nat.
Proof.
  intros t G x0 mp j Ht Hx0 Hmp Hj.
  assert (E : (G * 2 ^ t + (x0 + Z.of_nat (S j)) mod 2 ^ t =? G * 2 ^ t + x0)
              = ((x0 + Z.of_nat (S j)) mod 2 ^ t =? x0)).
  { destruct (Z.eqb_spec (G * 2 ^ t + (x0 + Z.of_nat (S j)) mod 2 ^ t) (G * 2 ^ t + x0)),
      (Z.eqb_spec ((x0 + Z.of_nat (S j)) mod 2 ^ t) x0); lia. }
  rewrite E. apply probe_continue; try assumption.
  exists t. split; [exact Ht | reflexivity].
Qed.

(** The placement loop walks the slots of the block. *)
Lemma insert_loop_gen : forall m t G x0 mp a v n (j : nat),
  0 <= t -> 0 < m -> Z.odd m = true -> Z.land G (m - 1) = G ->
  0 <= x0 < 2 ^ t -> 0 <= mp ->
  (j < Z.to_nat (Z.min (mp + 1) (2 ^ t)))%nat ->
  (Z.to_nat (Z.min (mp + 1) (2 ^ t)) - j <= n)%nat ->
  insert_loop n a (m * 2 ^ t) mp (G * 2 ^ t + x0)
    (G * 2 ^ t + (x0 + Z.of_nat j) mod 2 ^ t) (Z.of_nat j) v =
  place_first a (map (fun i => G * 2 ^ t + (x0 + Z.of_nat i) mod 2 ^ t)
                     (seq j (Z.to_nat (Z.min (mp + 1) (2 ^ t)) - j))) v.
Proof.
  intros m t G x0 mp a v n. induction n as [|n IH]; intros j Ht Hm Ho HG Hx0 Hmp Hj Hn; [lia|].
  destruct (Z.to_nat (Z.min (mp + 1) (2 ^ t)) - j)%nat as [|r] eqn:Er; [lia|].
  cbn [seq map place_first insert_loop].
  destruct (jl_intref a _) as [x| |]; cbn [bind]; try reflexivity.
  destruct (x =? 0); [reflexivity|].
  rewrite gen_next_index, gen_continue by (assumption || lia).
  destruct (Nat.ltb_spec (S j) (Z.to_nat (Z.min (mp + 1) (2 ^ t)))) as [Hl|Hl].
  - replace (Z.of_nat j + 1) with (Z.of_nat (S j)) by lia.
    rewrite IH by (assumption || lia).
    replace r with (Z.to_nat (Z.min (mp + 1) (2 ^ t)) - S j)%nat by lia. reflexivity.
  - replace r with 0%nat by lia. reflexivity.
Qed.

(** Direct placement on a table of capacity [m * 2^t], [m] odd. *)
Lemma smallintset_insert_gen : forall a hv v m t,
  0 <= t -> 0 < m -> Z.odd m = true -> nrows a = m * 2 ^ t -> 2 <= nrows a ->
  smallintset_insert_ a hv v =
  place_first a
    (map (fun i => Z.land (hv / 2 ^ t) (m - 1) * 2 ^ t + (hv mod 2 ^ t + Z.of_nat i) mod 2 ^ t)
         (seq 0 (Z.to_nat (Z.min (max_probe (nrows a) + 1) (2 ^ t))))) v.
Proof.
  intros a hv v m t Ht Hm Ho Hn H2. unfold smallintset_insert_.
  destruct (Z.leb_spec (nrows a) 1) as [H|_]; [lia|].
  pose proof (Z.pow_pos_nonneg 2 t ltac:(lia) Ht) as HB.
  assert (Hmp : 0 <= max_probe (nrows a)) by (apply max_probe_nonneg; lia).
  assert (Hx : 0 <= hv mod 2 ^ t < 2 ^ t) by (apply Z.mod_pos_bound; lia).
  set (mp := max_probe (nrows a)) in *.
  set (G := Z.land (hv / 2 ^ t) (m - 1)).
  assert (HG : Z.land G (m - 1) = G)
    by (unfold G; rewrite <- Z.land_assoc, Z.land_diag; reflexivity).
  assert (Hs : h2index hv (nrows a) = G * 2 ^ t + hv mod 2 ^ t)
    by (unfold h2index; rewrite Hn, block_land by lia; reflexivity).
  rewrite Hs, Hn.
  pose proof (insert_loop_gen m t G (hv mod 2 ^ t) mp a v (Z.to_nat (mp + 1)) 0
                Ht Hm Ho HG Hx Hmp) as HL.
  rewrite <- probe_start in HL by exact Hx. cbn [Z.of_nat] in HL.
  rewrite Nat.sub_0_r in HL. apply HL; lia.
Qed.

(** Direct placement succeeds when fewer slots are occupied than the
    probe visits. *)
Lemma insert_succeeds_gen : forall a hv v m t,
  el a <> AnyType -> 0 <= t -> 0 < m -> Z.odd m = true -> nrows a = m * 2 ^ t ->
  2 <= nrows a ->
  (count_nz (data a) < Z.to_nat (Z.min (max_probe (nrows a) + 1) (2 ^ t)))%nat ->
  exists a', smallintset_insert_ a hv v = Ok (Some a').
Proof.
  intros a hv v m t Hel Ht Hm Ho Hn H2 Hc.
  destruct (insert_ok a hv v Hel) as [[a'|] E]; [eauto|exfalso].
  rewrite (smallintset_insert_gen a hv v m t Ht Hm Ho Hn H2) in E.
  pose proof (place_first_none a _ v Hel E) as Hnz.
  pose proof (Z.pow_pos_nonneg 2 t ltac:(lia) Ht) as HB.
  set (L := Z.to_nat (Z.min (max_probe (nrows a) + 1) (2 ^ t))) in *.
  assert (HL : (L <= Z.to_nat (2 ^ t))%nat) by (subst L; lia).
  set (G := Z.land (hv / 2 ^ t) (m - 1)) in *.
  assert (HG : 0 <= G <= m - 1) by (apply land_bound; lia).
  assert (Hs : 0 <= hv mod 2 ^ t < 2 ^ t) by (apply Z.mod_pos_bound; lia).
  set (g := fun i : nat => G * 2 ^ t + (hv mod 2 ^ t + Z.of_nat i) mod 2 ^ t).
  assert (Hr : forall i, 0 <= (hv mod 2 ^ t + Z.of_nat i) mod 2 ^ t < 2 ^ t)
    by (intros i; apply Z.mod_pos_bound; lia).
  assert (Hg : forall i, 0 <= g i < nrows a)
    by (intros i; unfold g; pose proof (Hr i); rewrite Hn; nia).
  set (f := fun i : nat => Z.to_nat (g i)).
  assert (Hle : (length (map f (seq 0 L)) <= count_nz (data a))%nat).
  { apply count_nz_ge.
    - apply NoDup_map_NoDup_ForallPairs; [|apply seq_NoDup].
      intros x y Hx Hy Hf. apply in_seq in Hx, Hy. unfold f in Hf.
      pose proof (Hg x). pose proof (Hg y).
      apply Z2Nat.inj in Hf; try lia. unfold g in Hf.
      assert (Hxy : (hv mod 2 ^ t + Z.of_nat x) mod 2 ^ t = (hv mod 2 ^ t + Z.of_nat y) mod 2 ^ t)
        by lia.
      apply mod_shift_inj in Hxy; lia.
    - intros i Hi. apply in_map_iff in Hi as [x [<- Hx]]. unfold f.
      pose proof (Hg x). split.
      + unfold nrows in *. lia.
      + apply Hnz. apply in_map_iff. exists x. split; [reflexivity | exact Hx]. }
  rewrite length_map, length_seq in Hle. lia.
Qed.

(** The rebuild succeeds when the table stays sparse enough. *)
Lemma build_succeeds_gen : forall hash slots t0 m t,
  el t0 <> AnyType -> 0 <= t -> 0 < m -> Z.odd m = true -> nrows t0 = m * 2 ^ t ->
  2 <= nrows t0 ->
  (count_nz (data t0) + count_nz slots
     <= Z.to_nat (Z.min (max_probe (nrows t0) + 1) (2 ^ t)))%nat ->
  exists t', build_in_order hash slots t0 = Ok (Some t').
Proof.
  intros hash. induction slots as [|v vs IH]; intros t0 m t Hel Ht Hm Ho Hn H2 Hc;
    cbn [build_in_order]; [eauto|].
  rewrite count_nz_cons in Hc.
  destruct (Z.eqb_spec v 0) as [Hv|Hv]; [apply (IH t0 m t); auto|].
  destruct (insert_succeeds_gen t0 (hash (v - 1)) v m t Hel Ht Hm Ho Hn H2 ltac:(lia))
    as [t1 E].
  rewrite E. cbn [bind].
  destruct (insert_some _ _ _ _ E) as [I1 [I2 [_ [_ I5]]]].
  assert (Hn1 : nrows t1 = nrows t0) by (unfold nrows; rewrite I2; reflexivity).
  apply (IH t1 m t); rewrite ?Hn1; try congruence; try assumption; lia.
Qed.

(** Every positive capacity is an odd number times a power of two. *)
Lemma odd_decomp : forall N, 0 < N ->
  exists m t, 0 <= t /\ 0 < m /\ Z.odd m = true /\ N = m * 2 ^ t.
Proof.
  assert (H : forall k : nat, forall N, 0 < N <= Z.of_nat k ->
            exists m t, 0 <= t /\ 0 < m /\ Z.odd m = true /\ N = m * 2 ^ t).
  { induction k as [|k IH]; intros N HN; [lia|].
    destruct (Z.odd N) eqn:Ho.
    - exists N, 0. rewrite Z.pow_0_r. repeat split; auto; lia.
    - assert (HN2 : N = 2 * (N / 2))
        by (rewrite Zodd_mod in Ho; apply Z.eqb_neq in Ho; Z.div_mod_to_equations; lia).
      destruct (IH (N / 2) ltac:(Z.div_mod_to_equations; lia)) as [m [t [Ht [Hm [Hmo HE]]]]].
      exists m, (t + 1). repeat split; auto; try lia.
      rewrite Z.pow_add_r by lia. rewrite HN2, HE. ring. }
  intros N HN. apply (H (Z.to_nat N)). lia.
Qed.

Section Termination.

Variable hash : Z -> Z.

Lemma rehash_retry_terminates : forall a np j newsz fuel,
  el a <> AnyType \/ data a = [] -> (j < fuel)%nat ->
  (forall nj, jl_alloc_int_1d np (newsz * 2 ^ Z.of_nat j) = Ok nj ->
     exists t, build_in_order hash (data a) nj = Ok (Some t)) ->
  rehash_retry hash fuel a np newsz <> NoFuel.
Proof.
  intros a np j. induction j as [|j IH]; intros newsz fuel Hr Hj Hb;
    (destruct fuel as [|fuel]; [lia|]); cbn [rehash_retry];
    (destruct (jl_alloc_int_1d np newsz) as [newa| |] eqn:Ea; cbn [bind]; try discriminate;
     [|exfalso; exact (alloc_not_nofuel _ _ Ea)]);
    rewrite rehash_fill_build by exact Hr.
  - change (2 ^ Z.of_nat 0) with 1 in Hb. rewrite Z.mul_1_r in Hb.
    destruct (Hb newa Ea) as [t ->]. cbn [bind]. discriminate.
  - pose proof (build_not_nofuel hash (data a) newa).
    destruct (build_in_order hash (data a) newa) as [[t|]| |]; cbn [bind];
      try discriminate; [|congruence].
    rewrite Z.shiftl_mul_pow2 by lia. apply IH; [exact Hr | lia |].
    intros nj Hnj. apply Hb.
    replace (newsz * 2 ^ Z.of_nat (S j)) with (newsz * 2 ^ 1 * 2 ^ Z.of_nat j)
      by (rewrite Nat2Z.inj_succ, Z.pow_succ_r by lia; lia).
    exact Hnj.
Qed.

(** A rehash started at a positive capacity, or over an empty table,
    finishes. *)
Lemma rehash_terminates_gen : forall a newsz np,
  0 < newsz \/ data a = [] ->
  exists fuel, smallintset_rehash hash fuel a newsz np <> NoFuel.
Proof.
  intros a newsz np Hs.
  assert (Hcase : (el a <> AnyType \/ data a = []) \/ (el a = AnyType /\ data a <> [])).
  { destruct (el a), (data a); try (left; left; discriminate); try (left; right; reflexivity);
      right; split; [reflexivity | discriminate]. }
  destruct Hcase as [Hr|[Hel Hd]];
    [| exists 1%nat; unfold smallintset_rehash; rewrite rehash_max_any by assumption;
       discriminate].
  unfold smallintset_rehash. rewrite rehash_max_fold by exact Hr. cbn [bind].
  set (np' := fold_left Z.max (data a) np).
  destruct Hs as [Hp|Hd];
    [| exists 1%nat; apply (rehash_retry_terminates a np' 0); [exact Hr | lia |];
       intros nj _; rewrite Hd; cbn; eauto].
  destruct (odd_decomp newsz Hp) as [m [t0 [Ht0 [Hm [Ho Hns]]]]].
  set (n := count_nz (data a)).
  set (j := Z.to_nat (1024 + 64 * (Z.of_nat n + 1))).
  assert (Hj : Z.of_nat j = 1024 + 64 * (Z.of_nat n + 1)) by (subst j; lia).
  exists (S j). apply (rehash_retry_terminates a np' j); [exact Hr | lia |].
  intros nj Hnj.
  pose proof (Z.pow_gt_lin_r 2 (Z.of_nat j) ltac:(lia) ltac:(lia)) as Hbig.
  pose proof (Z.pow_pos_nonneg 2 t0 ltac:(lia) Ht0) as Hp0.
  pose proof (Z.pow_pos_nonneg 2 (Z.of_nat j) ltac:(lia) ltac:(lia)) as Hpj.
  assert (HN : 2 ^ Z.of_nat j <= newsz * 2 ^ Z.of_nat j) by nia.
  pose proof (alloc_nrows np' (newsz * 2 ^ Z.of_nat j) nj ltac:(lia) Hnj) as Hn.
  destruct (alloc_ok _ _ _ Hnj) as [_ [Hd Hel]].
  assert (HB : 2 ^ Z.of_nat j <= 2 ^ (t0 + Z.of_nat j)) by (apply Z.pow_le_mono_r; lia).
  assert (Hnt : nrows nj = m * 2 ^ (t0 + Z.of_nat j))
    by (rewrite Hn, Hns, Z.pow_add_r by lia; ring).
  pose proof (probe_len_big (newsz * 2 ^ Z.of_nat j) n ltac:(lia) ltac:(lia)) as Hpl.
  apply (build_succeeds_gen hash (data a) nj m (t0 + Z.of_nat j) Hel ltac:(lia) Hm Ho Hnt
           ltac:(lia)).
  rewrite Hd, count_nz_repeat0, Hn. cbn [Nat.add]. lia.
Qed.

Lemma rehash_retry_mono : forall f f' a np newsz,
  rehash_retry hash f a np newsz <> NoFuel -> (f <= f')%nat ->
  rehash_retry hash f' a np newsz = rehash_retry hash f a np newsz.
Proof.
  induction f as [|f IH]; intros f' a np newsz H Hle; [cbn in H; congruence|].
  destruct f' as [|f']; [lia|]. cbn [rehash_retry] in *.
  destruct (jl_alloc_int_1d np newsz); cbn [bind] in *; try reflexivity.
  destruct (rehash_fill hash (length (data a)) a _ 0) as [[t|]| |]; cbn [bind] in *;
    try reflexivity.
  apply IH; [exact H | lia].
Qed.

Lemma rehash_mono : forall f f' a newsz np,
  smallintset_rehash hash f a newsz np <> NoFuel -> (f <= f')%nat ->
  smallintset_rehash hash f' a newsz np = smallintset_rehash hash f a newsz np.
Proof.
  intros f f' a newsz np H Hle. unfold smallintset_rehash in *.
  destruct (rehash_max _ a 0 np); cbn [bind] in *; try reflexivity.
  apply rehash_retry_mono; assumption.
Qed.

Variable HT : Z.
Hypothesis HHT : is_pow2 HT.
Variable val : Z.

Lemma insert_retry_mono : forall f f' a pub,
  insert_retry hash HT f a val pub <> NoFuel -> (f <= f')%nat ->
  insert_retry hash HT f' a val pub = insert_retry hash HT f a val pub.
Proof.
  induction f as [|f IH]; intros f' a pub H Hle; [cbn in H; congruence|].
  destruct f' as [|f']; [lia|]. cbn [insert_retry] in *.
  destruct (smallintset_insert_ a (hash val) (val + 1)) as [[a'|]| |]; cbn [bind] in *;
    try reflexivity.
  destruct (smallintset_rehash hash (S f) a (grow_size HT (nrows a)) 0) as [a2| |] eqn:Er;
    cbn [bind] in H; [| |congruence];
  (rewrite (rehash_mono (S f) (S f')) by (rewrite ?Er; discriminate || lia));
  rewrite Er; cbn [bind]; [|reflexivity].
  apply IH; [exact H | lia].
Qed.

Lemma grow_pow2 : forall sz, sz = 0 \/ is_pow2 sz ->
  is_pow2 (grow_size HT sz) /\ 2 * sz <= grow_size HT sz.
Proof.
  intros sz Hs. pose proof (pow2_pos HT HHT). rewrite grow_size_eq.
  destruct (Z.ltb_spec sz HT) as [Hl|Hl].
  - split; [exact HHT|]. destruct Hs as [->|Hs]; [lia|].
    apply pow2_double_le; assumption.
  - destruct Hs as [->|Hs]; [lia|]. pose proof (pow2_pos sz Hs).
    destruct (_ || _); split; try lia.
    + apply (pow2_mul sz 1). exact Hs.
    + apply (pow2_mul sz 2). exact Hs.
Qed.

Hypothesis HHT0 : 0 < HT.

Lemma grow_gen : forall sz, HT <= sz -> exists c, 1 <= c /\ grow_size HT sz = sz * 2 ^ c.
Proof.
  intros sz H. rewrite grow_size_eq. destruct (Z.ltb_spec sz HT); [lia|].
  destruct (_ || _); [exists 1 | exists 2]; split; (lia || reflexivity).
Qed.

(** One full round: placement failed, the growth rehash finishes, and the
    retry from the published table finishes. *)
Lemma retry_round_gen : forall a pub,
  smallintset_insert_ a (hash val) (val + 1) = Ok None ->
  0 < grow_size HT (nrows a) ->
  (forall t f, smallintset_rehash hash f a (grow_size HT (nrows a)) 0 = Ok t ->
     exists f2, insert_retry hash HT f2 t val (pub ++ [t]) <> NoFuel) ->
  exists fuel, insert_retry hash HT fuel a val pub <> NoFuel.
Proof.
  intros a pub Ei Hg Hnext.
  destruct (rehash_terminates_gen a (grow_size HT (nrows a)) 0 (or_introl Hg)) as [f1 Hf1].
  destruct (smallintset_rehash hash f1 a (grow_size HT (nrows a)) 0) as [t| |] eqn:Er;
    [| |congruence].
  - destruct (Hnext t f1 Er) as [f2 Hf2].
    exists (S (Nat.max f1 f2)). cbn [insert_retry]. rewrite Ei. cbn [bind].
    rewrite (rehash_mono f1) by (rewrite ?Er; discriminate || lia). rewrite Er. cbn [bind].
    rewrite (insert_retry_mono f2) by (assumption || lia). exact Hf2.
  - exists (S f1). cbn [insert_retry]. rewrite Ei. cbn [bind].
    rewrite (rehash_mono f1) by (rewrite ?Er; discriminate || lia). rewrite Er.
    discriminate.
Qed.

(** A table of capacity [m * 2^tt] ([m] odd) accepts the value once
    [1024 + 64 (n + 1) <= capacity] and [n < 2^tt], [n] bounding the
    entries; each growth round at least doubles both the capacity and the
    power of two in it, so [R] rounds suffice when [2^R] times the capacity
    and [2^(R + tt)] reach those bounds. *)
Lemma retry_terminates_gen : forall R n a pub m tt,
  el a <> AnyType -> 0 <= tt -> 0 < m -> Z.odd m = true -> nrows a = m * 2 ^ tt ->
  HT <= nrows a -> (count_nz (data a) <= n)%nat ->
  1024 + 64 * (Z.of_nat n + 1) <= 2 ^ Z.of_nat R * nrows a ->
  Z.of_nat n < 2 ^ (Z.of_nat R + tt) ->
  exists fuel, insert_retry hash HT fuel a val pub <> NoFuel.
Proof.
  induction R as [|R IH]; intros n a pub m tt Hel Htt Hm Ho Hn HHa Hc HR Hbits;
    (destruct (insert_ok a (hash val) (val + 1) Hel) as [[a'|] Ei];
     [exists 1%nat; cbn [insert_retry]; rewrite Ei; cbn [bind]; discriminate|]).
  - change (2 ^ Z.of_nat 0) with 1 in HR. cbn [Z.of_nat] in Hbits.
    rewrite Z.add_0_l in Hbits. exfalso.
    pose proof (probe_len_big (nrows a) n ltac:(lia) ltac:(lia)) as Hpl.
    destruct (insert_succeeds_gen a (hash val) (val + 1) m tt Hel Htt Hm Ho Hn
                ltac:(lia) ltac:(lia)) as [a2 E].
    congruence.
  - destruct (grow_gen (nrows a) HHa) as [c [Hc1 Hg]].
    pose proof (Z.pow_pos_nonneg 2 tt ltac:(lia) Htt).
    assert (H2c : 2 ^ 1 <= 2 ^ c) by (apply Z.pow_le_mono_r; lia).
    change (2 ^ 1) with 2 in H2c.
    assert (Hgpos : 0 < grow_size HT (nrows a)) by (rewrite Hg; nia).
    apply retry_round_gen; [exact Ei | exact Hgpos |]. intros t f Er.
    destruct (rehash_facts hash f a (grow_size HT (nrows a)) 0 t ltac:(lia) Er)
      as [Htel [Htc [k Hk]]].
    pose proof (Z.pow_pos_nonneg 2 (Z.of_nat k) ltac:(lia) ltac:(lia)) as Hk0.
    assert (Hnt : nrows t = m * 2 ^ (tt + c + Z.of_nat k))
      by (rewrite Hk, Hg, Hn, !Z.pow_add_r by lia; ring).
    assert (Hge1 : 2 * nrows a <= nrows a * 2 ^ c) by nia.
    assert (Hge : 2 * nrows a <= nrows t) by (rewrite Hk, Hg; nia).
    rewrite Nat2Z.inj_succ, Z.pow_succ_r in HR by lia.
    pose proof (Z.pow_pos_nonneg 2 (Z.of_nat R) ltac:(lia) ltac:(lia)).
    assert (2 ^ Z.of_nat R * (2 * nrows a) <= 2 ^ Z.of_nat R * nrows t)
      by (apply Z.mul_le_mono_nonneg_l; lia).
    assert (HR' : 1024 + 64 * (Z.of_nat n + 1) <= 2 ^ Z.of_nat R * nrows t) by nia.
    assert (Hbits' : Z.of_nat n < 2 ^ (Z.of_nat R + (tt + c + Z.of_nat k))).
    { eapply Z.lt_le_trans; [exact Hbits|]. apply Z.pow_le_mono_r; lia. }
    exact (IH n t (pub ++ [t]) m (tt + c + Z.of_nat k) Htel ltac:(lia) Hm Ho Hnt
             ltac:(lia) ltac:(lia) HR' Hbits').
Qed.

Lemma insert_retry_terminates_big : forall a pub,
  el a <> AnyType -> HT <= nrows a ->
  exists fuel, insert_retry hash HT fuel a val pub <> NoFuel.
Proof.
  intros a pub Hel HHa.
  destruct (odd_decomp (nrows a) ltac:(lia)) as [m [tt [Htt [Hm [Ho Hn]]]]].
  set (n := count_nz (data a)).
  set (R := Z.to_nat (1024 + 64 * (Z.of_nat n + 1))).
  assert (HR0 : Z.of_nat R = 1024 + 64 * (Z.of_nat n + 1)) by (subst R; lia).
  pose proof (Z.pow_gt_lin_r 2 (Z.of_nat R) ltac:(lia) ltac:(lia)) as Hbig.
  pose proof (Z.pow_pos_nonneg 2 tt ltac:(lia) Htt).
  assert (HR : 1024 + 64 * (Z.of_nat n + 1) <= 2 ^ Z.of_nat R * nrows a) by nia.
  assert (Hb : Z.of_nat n < 2 ^ (Z.of_nat R + tt)).
  { assert (2 ^ Z.of_nat R <= 2 ^ (Z.of_nat R + tt)) by (apply Z.pow_le_mono_r; lia). lia. }
  exact (retry_terminates_gen R n a pub m tt Hel Htt Hm Ho Hn HHa (le_n _) HR Hb).
Qed.

Lemma insert_retry_terminates_gen : forall a pub, el a <> AnyType ->
  exists fuel, insert_retry hash HT fuel a val pub <> NoFuel.
Proof.
  intros a pub Hel.
  destruct (Z.le_gt_cases HT (nrows a)) as [HHa|HHa];
    [apply insert_retry_terminates_big; assumption|].
  destruct (insert_ok a (hash val) (val + 1) Hel) as [[a'|] Ei];
    [exists 1%nat; cbn [insert_retry]; rewrite Ei; cbn [bind]; discriminate|].
  assert (Hg : grow_size HT (nrows a) = HT)
    by (rewrite grow_size_eq; destruct (Z.ltb_spec (nrows a) HT); [reflexivity | lia]).
  apply retry_round_gen; [exact Ei | lia |]. intros t f Er.
  destruct (rehash_facts hash f a (grow_size HT (nrows a)) 0 t ltac:(lia) Er)
    as [Htel [_ [k Hk]]].
  apply insert_retry_terminates_big; [exact Htel|].
  rewrite Hk, Hg. pose proof (Z.pow_pos_nonneg 2 (Z.of_nat k) ltac:(lia) ltac:(lia)). nia.
Qed.

Lemma jl_insert_terminates_gen : forall a, 0 <= val ->
  exists fuel, jl_smallintset_insert hash HT fuel a val <> NoFuel.
Proof.
  intros a Hv. unfold jl_smallintset_insert.
  destruct (Z.gtb_spec (val + 1) (jl_max_int a)) as [Hm|Hm].
  - assert (Hs : 0 < nrows a \/ data a = []).
    { unfold nrows. destruct (data a); [right; reflexivity | left; cbn [length]; lia]. }
    destruct (rehash_terminates_gen a (nrows a) (val + 1) Hs) as [f1 Hf1].
    destruct (smallintset_rehash hash f1 a (nrows a) (val + 1)) as [a1| |] eqn:Er;
      [| |congruence].
    + assert (Hn : 0 <= nrows a) by (unfold nrows; lia).
      destruct (rehash_facts hash f1 a (nrows a) (val + 1) a1 Hn Er) as [Hel1 _].
      destruct (insert_retry_terminates_gen a1 [a1] Hel1) as [f2 Hf2].
      exists (Nat.max f1 f2).
      rewrite (rehash_mono f1) by (rewrite ?Er; discriminate || lia). rewrite Er. cbn [bind].
      rewrite (insert_retry_mono f2) by (assumption || lia). exact Hf2.
    + exists f1. rewrite Er. cbn [bind]. discriminate.
  - assert (Hel : el a <> AnyType)
      by (intros E; unfold jl_max_int in Hm; rewrite E in Hm; lia).
    apply insert_retry_terminates_gen; assumption.
Qed.

End Termination.

(** C9: both retry loops finish.  A rehash finishes (publishes a table or
    aborts) for every old table and every starting capacity its callers
    pass: a positive one, or 0 over an empty table.  The callers pass
    [nrows(a)] when widening, which is 0 only for an empty table, and the
    growth size, which is positive when [HT_N_INLINE] is.  Inserting any
    [val >= 0] into any table finishes. *)
Theorem smallintset_terminates : forall hash HT,
  (forall a newsz np, 0 < newsz \/ data a = [] ->
     exists fuel, smallintset_rehash hash fuel a newsz np <> NoFuel) /\
  (forall a, nrows a = 0 -> data a = []) /\
  (0 < HT -> forall sz, 0 <= sz -> 0 < grow_size HT sz) /\
  (0 < HT -> forall a val, 0 <= val ->
     exists fuel, jl_smallintset_insert hash HT fuel a val <> NoFuel).
Proof.
  intros hash HT. split; [|split; [|split]].
  - intros a newsz np Hs. apply rehash_terminates_gen. exact Hs.
  - intros a H0. unfold nrows in H0. destruct (data a); [reflexivity | cbn [length] in H0; lia].
  - intros HHT0 sz Hsz. rewrite grow_size_eq. destruct (Z.ltb_spec sz HT); [lia|].
    destruct (_ || _); lia.
  - intros HHT0 a val Hv. apply jl_insert_terminates_gen; assumption.
Qed.

Lemma smallintset_terminates_witness :
  (exists fuel, smallintset_rehash ex_hash fuel (mk_array UInt8 [1; 2; 3]) 3 0 <> NoFuel) /\
  (exists fuel, jl_smallintset_insert ex_hash 48 fuel (mk_array UInt8 [1; 0; 0]) 300 <> NoFuel).
Proof.
  split.
  - apply (proj1 (smallintset_terminates ex_hash 48) (mk_array UInt8 [1; 2; 3]) 3 0).
    left. lia.
  - apply (proj2 (proj2 (proj2 (smallintset_terminates ex_hash 48))) ltac:(lia)
             (mk_array UInt8 [1; 0; 0]) 300).
    lia.
Defined.

(** ** Slot-level facts *)

Lemma nth_list_set_other : forall l m n w d,
  n <> m -> nth n (list_set l m w) d = nth n l d.
Proof.
  induction l as [|x l IH]; intros [|m] [|n] w d H; cbn; try reflexivity; try lia.
  apply IH. lia.
Qed.

Lemma nth_list_set_same : forall l m w d,
  (m < length l)%nat -> nth m (list_set l m w) d = w.
Proof.
  induction l as [|x l IH]; intros [|m] w d H; cbn in *; try lia; try reflexivity.
  apply IH. lia.
Qed.

Lemma In_list_set_or : forall l n w x, In x (list_set l n w) -> In x l \/ x = w.
Proof.
  induction l as [|y l IH]; intros [|n] w x H; cbn in *; try tauto.
  - destruct H as [->|H]; tauto.
  - destruct H as [->|H]; [tauto|]. destruct (IH n w x H); tauto.
Qed.

Lemma count_list_set_eq : forall l n w,
  (n < length l)%nat -> nth n l 0 = 0 -> w <> 0 ->
  count_nz (list_set l n w) = S (count_nz l).
Proof.
  induction l as [|x l IH]; intros [|n] w Hn Hz Hw; cbn [list_set nth length] in *; try lia.
  - subst x. rewrite !count_nz_cons. destruct (Z.eqb_spec w 0); [contradiction|].
    reflexivity.
  - rewrite !count_nz_cons. rewrite IH by (auto; lia). destruct (x =? 0); reflexivity.
Qed.

Lemma release_exact : forall a p v a',
  jl_intset_release a p v = Ok a' ->
  el a <> AnyType /\ el a' = el a /\
  data a' = list_set (data a) (Z.to_nat p) (Z.land v (jl_max_int a)).
Proof.
  intros a p v a' H. unfold jl_intset_release, jl_max_int in *.
  destruct (el a); inversion H; subst; (split; [discriminate|]); split; reflexivity.
Qed.

Lemma land_max_small : forall a v, 0 <= v <= jl_max_int a -> Z.land v (jl_max_int a) = v.
Proof.
  intros a v Hv. unfold jl_max_int in *. destruct (el a).
  - change 255 with (Z.ones 8). rewrite Z.land_ones by lia. apply Z.mod_small. cbn. lia.
  - change 65535 with (Z.ones 16). rewrite Z.land_ones by lia. apply Z.mod_small. cbn. lia.
  - change 4294967295 with (Z.ones 32). rewrite Z.land_ones by lia. apply Z.mod_small. cbn. lia.
  - assert (v = 0) by lia. subst v. reflexivity.
Qed.

Lemma jl_max_int_nonneg : forall a, 0 <= jl_max_int a.
Proof. intros a. unfold jl_max_int. destruct (el a); lia. Qed.

(** A successful direct placement writes one slot that was empty. *)
Lemma insert_exact : forall a hv v a',
  smallintset_insert_ a hv v = Ok (Some a') ->
  el a <> AnyType /\ el a' = el a /\
  exists p, 0 <= p < nrows a /\ nth (Z.to_nat p) (data a) 0 = 0 /\
    data a' = list_set (data a) (Z.to_nat p) (Z.land v (jl_max_int a)).
Proof.
  intros a hv v a' H. unfold smallintset_insert_ in H.
  destruct (Z.leb_spec (nrows a) 1) as [_|H1]; [discriminate|].
  apply insert_loop_some in H as [p [Hp [Hz Hr]]];
    [| reflexivity | unfold h2index; pose proof (land_bound hv (nrows a - 1)); lia].
  apply release_exact in Hr as [Hel [Hel' Hd]].
  split; [exact Hel|]. split; [exact Hel'|]. exists p. auto.
Qed.

Lemma insert_wf : forall a hv v a',
  wf_array a -> smallintset_insert_ a hv v = Ok (Some a') -> wf_array a'.
Proof.
  intros a hv v a' Hwf H. destruct (insert_exact _ _ _ _ H) as [_ [Hel [p [_ [_ Hd]]]]].
  intros x Hx. rewrite (jl_max_int_el a' a Hel). rewrite Hd in Hx.
  destruct (In_list_set_or _ _ _ _ Hx) as [Hin| ->]; [exact (Hwf x Hin)|].
  apply land_bound, jl_max_int_nonneg.
Qed.

Lemma insert_count : forall a hv v a',
  0 < v <= jl_max_int a -> smallintset_insert_ a hv v = Ok (Some a') ->
  count_nz (data a') = S (count_nz (data a)).
Proof.
  intros a hv v a' Hv H. destruct (insert_exact _ _ _ _ H) as [_ [_ [p [Hp [Hz Hd]]]]].
  rewrite Hd, land_max_small by lia. apply count_list_set_eq; [unfold nrows in Hp; lia | exact Hz | lia].
Qed.

(** ** The visit list and placement *)

Lemma visits_bound : forall sz h p, 0 < sz -> In p (visits sz h) -> 0 <= p < sz.
Proof.
  intros sz h p Hsz Hp. unfold visits in Hp. apply in_map_iff in Hp as [k [<- _]].
  apply Z.mod_pos_bound. exact Hsz.
Qed.

Lemma place_first_some : forall t ps v t',
  place_first t ps v = Ok (Some t') ->
  exists pre q rest, ps = pre ++ q :: rest /\
    (forall p, In p pre -> nth (Z.to_nat p) (data t) 0 <> 0) /\
    nth (Z.to_nat q) (data t) 0 = 0 /\ jl_intset_release t q v = Ok t'.
Proof.
  intros t ps v t'. induction ps as [|q ps IH]; intros H; cbn [place_first] in H;
    [discriminate|].
  destruct (jl_intref t q) as [x| |] eqn:Ex; cbn [bind] in H; try discriminate.
  assert (Hx : x = nth (Z.to_nat q) (data t) 0)
    by (unfold jl_intref in Ex; destruct (el t); congruence).
  destruct (Z.eqb_spec x 0) as [Hz|Hz].
  - destruct (jl_intset_release t q v) as [t1| |] eqn:Er; cbn [bind] in H; inversion H; subst.
    exists [], q, ps. repeat split; auto; intros p [].
  - destruct (IH H) as [pre [q' [rest [-> [Hpre [Hq Hr]]]]]].
    exists (q :: pre), q', rest. repeat split; auto.
    intros p [<-|Hp]; [congruence | auto].
Qed.

Lemma place_first_full : forall t ps v,
  el t <> AnyType ->
  (forall p, In p ps -> nth (Z.to_nat p) (data t) 0 <> 0) ->
  place_first t ps v = Ok None.
Proof.
  intros t ps v Hel. induction ps as [|q ps IH]; intros H; cbn [place_first]; [reflexivity|].
  rewrite intref_ok by exact Hel. cbn [bind].
  destruct (Z.eqb_spec (nth (Z.to_nat q) (data t) 0) 0) as [Hz|_].
  - exfalso. exact (H q (or_introl eq_refl) Hz).
  - apply IH. intros p Hp. apply H. right. exact Hp.
Qed.

(** ** Lookup over the visit list *)

Lemma lookup_probe : forall cache eq h,
  is_pow2 (nrows cache) -> el cache <> AnyType ->
  jl_smallintset_lookup cache eq h =
  Ok (probe_lookup (data cache) eq (visits (nrows cache) h)).
Proof.
  intros cache eq h Hp Hel. pose proof (pow2_pos _ Hp) as Hpos.
  unfold jl_smallintset_lookup.
  destruct (Z.eqb_spec (nrows cache) 0) as [H0|_]; [lia|].
  rewrite h2index_mod by exact Hp. rewrite visits_eq.
  assert (Hs : 0 <= h mod nrows cache < nrows cache) by (apply Z.mod_pos_bound; lia).
  assert (Hmp : 0 <= max_probe (nrows cache)) by (apply max_probe_nonneg; lia).
  pose proof (lookup_loop_visits (nrows cache) (max_probe (nrows cache)) (h mod nrows cache)
                Hp Hs Hmp cache eq (Z.to_nat (max_probe (nrows cache) + 1)) 0) as HL.
  rewrite <- probe_start in HL by exact Hs. cbn [Z.of_nat] in HL.
  rewrite Nat.sub_0_r in HL. apply HL; [exact Hel | lia | lia].
Qed.

Lemma lookup_loop_sound : forall n cache eq sz mp orig index iter r,
  nrows cache = sz -> 0 <= index < sz ->
  lookup_loop n cache eq sz mp orig index iter = Ok r ->
  r = -1 \/ (eq r = true /\ In (r + 1) (data cache) /\ r + 1 <> 0).
Proof.
  induction n as [|n IH]; intros cache eq sz mp orig index iter r Hsz Hi H;
    cbn [lookup_loop] in H; [inversion H; auto|].
  assert (Hread : jl_intref_acquire cache index = Abort \/
                  jl_intref_acquire cache index = Ok (nth (Z.to_nat index) (data cache) 0))
    by (unfold jl_intref_acquire; destruct (el cache); auto).
  destruct Hread as [Hr|Hr]; rewrite Hr in H; cbn [bind] in H; [discriminate|].
  set (w := nth (Z.to_nat index) (data cache) 0) in *.
  assert (Hw : In w (data cache)) by (apply nth_In; unfold nrows in Hsz; lia).
  destruct (Z.eqb_spec w 0) as [Hz|Hz]; [inversion H; auto|].
  destruct (eq (w - 1)) eqn:Eq.
  - inversion H; subst r. right. replace (w - 1 + 1) with w by lia. auto.
  - destruct (_ && _); [|inversion H; auto].
    eapply IH; [exact Hsz | | exact H].
    pose proof (land_bound (index + 1) (sz - 1)). lia.
Qed.

Lemma lookup_sound : forall cache eq hv r,
  jl_smallintset_lookup cache eq hv = Ok r ->
  r = -1 \/ (eq r = true /\ In (r + 1) (data cache) /\ r + 1 <> 0).
Proof.
  intros cache eq hv r H. unfold jl_smallintset_lookup in H.
  destruct (Z.eqb_spec (nrows cache) 0) as [H0|H0]; [inversion H; auto|].
  eapply lookup_loop_sound; [reflexivity| |exact H].
  unfold h2index. assert (0 <= nrows cache) by (unfold nrows; lia).
  pose proof (land_bound hv (nrows cache - 1)). lia.
Qed.

Lemma probe_lookup_placed : forall slots eq pre q rest w,
  (forall p, In p pre -> nth (Z.to_nat p) slots 0 <> 0) ->
  nth (Z.to_nat q) slots 0 = w -> w <> 0 ->
  (forall i, eq i = true <-> i = w - 1) ->
  probe_lookup slots eq (pre ++ q :: rest) = w - 1.
Proof.
  intros slots eq pre q rest w. induction pre as [|p pre IH]; intros Hpre Hq Hw Heq;
    cbn [app probe_lookup].
  - rewrite Hq. destruct (Z.eqb_spec w 0); [contradiction|].
    replace (eq (w - 1)) with true by (symmetry; apply Heq; reflexivity). reflexivity.
  - destruct (Z.eqb_spec (nth (Z.to_nat p) slots 0) 0) as [Hz|Hz].
    + exfalso. exact (Hpre p (or_introl eq_refl) Hz).
    + destruct (eq (nth (Z.to_nat p) slots 0 - 1)) eqn:E.
      * apply Heq in E. exact E.
      * apply IH; auto. intros p' Hp'. apply Hpre. right. exact Hp'.
Qed.

Lemma probe_lookup_fill : forall slots eq ps n w,
  nth n slots 0 = 0 -> probe_lookup slots eq ps <> -1 ->
  probe_lookup (list_set slots n w) eq ps = probe_lookup slots eq ps.
Proof.
  intros slots eq ps n w Hn. induction ps as [|p ps IH]; intros H; cbn [probe_lookup] in *;
    [reflexivity|].
  destruct (Z.eqb_spec (nth (Z.to_nat p) slots 0) 0) as [Hz|Hz]; [contradiction|].
  rewrite nth_list_set_other by congruence.
  destruct (Z.eqb_spec (nth (Z.to_nat p) slots 0) 0); [contradiction|].
  destruct (eq _); [reflexivity|]. apply IH. exact H.
Qed.

(** After a placement of [v] the lookup for [v - 1] from the same hash
    finds it. *)
Lemma placed_found : forall a hv v a' eq,
  is_pow2 (nrows a) -> 0 < v <= jl_max_int a ->
  (forall i, eq i = true <-> i = v - 1) ->
  smallintset_insert_ a hv v = Ok (Some a') ->
  jl_smallintset_lookup a' eq hv = Ok (v - 1).
Proof.
  intros a hv v a' eq Hp Hv Heq H.
  destruct (insert_exact _ _ _ _ H) as [Hel [Hel' _]].
  assert (H2 : 2 <= nrows a).
  { unfold smallintset_insert_ in H. destruct (Z.leb_spec (nrows a) 1); [discriminate | lia]. }
  rewrite smallintset_insert_visits in H by assumption.
  destruct (place_first_some _ _ _ _ H) as [pre [q [rest [Hps [Hpre [Hq Hr]]]]]].
  apply release_exact in Hr as [_ [_ Hd]].
  rewrite land_max_small in Hd by lia.
  assert (Hn : nrows a' = nrows a) by (unfold nrows; rewrite Hd, length_list_set; reflexivity).
  assert (Hqb : 0 <= q < nrows a)
    by (apply (visits_bound _ hv); [apply pow2_pos; exact Hp | rewrite Hps; apply in_or_app; right; left; reflexivity]).
  rewrite lookup_probe by (rewrite ?Hn; congruence). rewrite Hn, Hps, Hd.
  f_equal. apply probe_lookup_placed; auto; try lia.
  - intros p Hin. rewrite nth_list_set_other; [exact (Hpre p Hin)|].
    intros E. apply (Hpre p Hin). rewrite E. exact Hq.
  - apply nth_list_set_same. unfold nrows in Hqb. lia.
Qed.

(** A placement never changes what a lookup finds. *)
Lemma fill_keeps_lookup : forall a hv v a' eq h r,
  is_pow2 (nrows a) -> smallintset_insert_ a hv v = Ok (Some a') ->
  jl_smallintset_lookup a eq h = Ok r -> r <> -1 ->
  jl_smallintset_lookup a' eq h = Ok r.
Proof.
  intros a hv v a' eq h r Hp H Hl Hr.
  destruct (insert_exact _ _ _ _ H) as [Hel [Hel' [p [_ [Hz Hd]]]]].
  assert (Hn : nrows a' = nrows a) by (unfold nrows; rewrite Hd, length_list_set; reflexivity).
  rewrite lookup_probe in Hl by assumption. inversion Hl as [Hl'].
  rewrite lookup_probe by (rewrite ?Hn; congruence). rewrite Hn, Hd.
  rewrite probe_lookup_fill by congruence. reflexivity.
Qed.

(** ** What a rehash publishes *)

Lemma rehash_parts : forall hash fuel a newsz np t,
  smallintset_rehash hash fuel a newsz np = Ok t ->
  exists (k : nat) nk,
    jl_alloc_int_1d (fold_left Z.max (data a) np) (newsz * 2 ^ Z.of_nat k) = Ok nk /\
    build_in_order hash (data a) nk = Ok (Some t).
Proof.
  intros hash fuel a newsz np t H.
  assert (Hr : el a <> AnyType \/ data a = [])
    by (apply (rehash_readable hash fuel a newsz np); congruence).
  unfold smallintset_rehash in H. rewrite rehash_max_fold in H by exact Hr. cbn [bind] in H.
  destruct (rehash_retry_ok hash _ _ _ _ _ H) as [k [_ [nk [Hk Hfill]]]].
  rewrite rehash_fill_build in Hfill by exact Hr. eauto.
Qed.

Lemma alloc_wf : forall np len a, jl_alloc_int_1d np len = Ok a -> wf_array a.
Proof.
  intros np len a H. destruct (alloc_ok _ _ _ H) as [_ [Hd _]].
  intros x Hx. rewrite Hd in Hx. apply repeat_spec in Hx. subst x.
  pose proof (jl_max_int_nonneg a). lia.
Qed.

Section Rebuild3.

Variable hash : Z -> Z.

Lemma build_wf : forall slots t t',
  wf_array t -> build_in_order hash slots t = Ok (Some t') -> wf_array t'.
Proof.
  induction slots as [|v vs IH]; intros t t' Hwf H; cbn [build_in_order] in H.
  - inversion H; subst. exact Hwf.
  - destruct (v =? 0); [exact (IH t t' Hwf H)|].
    destruct (smallintset_insert_ t (hash (v - 1)) v) as [[t1|]| |] eqn:Ei;
      cbn [bind] in H; try discriminate.
    exact (IH t1 t' (insert_wf _ _ _ _ Hwf Ei) H).
Qed.

Lemma build_count : forall slots t t',
  (forall v, In v slots -> 0 <= v <= jl_max_int t) ->
  build_in_order hash slots t = Ok (Some t') ->
  count_nz (data t') = (count_nz (data t) + count_nz slots)%nat.
Proof.
  induction slots as [|v vs IH]; intros t t' Hb H; cbn [build_in_order] in H.
  - inversion H; subst. change (count_nz []) with 0%nat. lia.
  - rewrite count_nz_cons. destruct (Z.eqb_spec v 0) as [Hv|Hv].
    + apply IH; [intros x Hx; apply Hb; right; exact Hx | exact H].
    + destruct (smallintset_insert_ t (hash (v - 1)) v) as [[t1|]| |] eqn:Ei;
        cbn [bind] in H; try discriminate.
      destruct (insert_exact _ _ _ _ Ei) as [_ [Hel _]].
      rewrite (IH t1 t'); [| intros x Hx; rewrite (jl_max_int_el t1 t Hel); apply Hb; right; exact Hx
                           | exact H].
      rewrite (insert_count t (hash (v - 1)) v t1); [lia| |exact Ei].
      specialize (Hb v (or_introl eq_refl)). lia.
Qed.

(** A rebuild into a power-of-two table keeps what lookups found and makes
    every re-inserted entry findable from its hash. *)
Lemma build_found : forall slots t t',
  is_pow2 (nrows t) ->
  (forall v, In v slots -> 0 <= v <= jl_max_int t) ->
  build_in_order hash slots t = Ok (Some t') ->
  (forall eq h r, jl_smallintset_lookup t eq h = Ok r -> r <> -1 ->
     jl_smallintset_lookup t' eq h = Ok r) /\
  (forall x eq, In x slots -> x <> 0 -> (forall i, eq i = true <-> i = x - 1) ->
     jl_smallintset_lookup t' eq (hash (x - 1)) = Ok (x - 1)).
Proof.
  induction slots as [|v vs IH]; intros t t' Hp Hb H; cbn [build_in_order] in H.
  - inversion H; subst. split; [auto | intros x eq []].
  - destruct (Z.eqb_spec v 0) as [Hv|Hv].
    + destruct (IH t t' Hp (fun x Hx => Hb x (or_intror Hx)) H) as [Ha Hf].
      split; [exact Ha|]. intros x eq [<-|Hx] Hx0 Heq; [contradiction | exact (Hf x eq Hx Hx0 Heq)].
    + destruct (smallintset_insert_ t (hash (v - 1)) v) as [[t1|]| |] eqn:Ei;
        cbn [bind] in H; try discriminate.
      destruct (insert_exact _ _ _ _ Ei) as [_ [Hel [p [_ [_ Hd]]]]].
      assert (Hn : nrows t1 = nrows t) by (unfold nrows; rewrite Hd, length_list_set; reflexivity).
      destruct (IH t1 t') as [Ha Hf]; [rewrite Hn; exact Hp
        | intros x Hx; rewrite (jl_max_int_el t1 t Hel); apply Hb; right; exact Hx | exact H |].
      split.
      * intros eq h r Hl Hr. apply Ha; [|exact Hr].
        exact (fill_keeps_lookup t _ _ t1 eq h r Hp Ei Hl Hr).
      * intros x eq [Ev|Hx] Hx0 Heq; [subst x|exact (Hf x eq Hx Hx0 Heq)].
        apply Ha; [|lia].
        apply (placed_found t _ v t1 eq Hp); [| exact Heq | exact Ei].
        specialize (Hb v (or_introl eq_refl)). lia.
Qed.

End Rebuild3.

Lemma rehash_wf : forall hash fuel a newsz np t,
  smallintset_rehash hash fuel a newsz np = Ok t -> wf_array t.
Proof.
  intros hash fuel a newsz np t H.
  destruct (rehash_parts _ _ _ _ _ _ H) as [k [nk [Hk Hb]]].
  exact (build_wf hash _ _ _ (alloc_wf _ _ _ Hk) Hb).
Qed.

(** The published table's width exceeds [np] and every old slot. *)
Lemma rehash_width : forall hash fuel a newsz np t,
  smallintset_rehash hash fuel a newsz np = Ok t ->
  np < jl_max_int t /\ (forall x, In x (data a) -> x < jl_max_int t).
Proof.
  intros hash fuel a newsz np t H.
  destruct (rehash_parts _ _ _ _ _ _ H) as [k [nk [Hk Hb]]].
  destruct (build_some hash _ _ _ Hb) as [Hel _].
  destruct (alloc_ok _ _ _ Hk) as [Hlt _].
  rewrite (jl_max_int_el t nk Hel).
  pose proof (fold_max_acc (data a) np). split; [lia|].
  intros x Hx. pose proof (fold_max_in (data a) np x Hx). lia.
Qed.

Lemma rehash_slot_bounds : forall a newsz np nk k,
  wf_array a ->
  jl_alloc_int_1d (fold_left Z.max (data a) np) (newsz * 2 ^ Z.of_nat k) = Ok nk ->
  forall v, In v (data a) -> 0 <= v <= jl_max_int nk.
Proof.
  intros a newsz np nk k Hwf Hk v Hv.
  destruct (alloc_ok _ _ _ Hk) as [Hlt _].
  pose proof (fold_max_in (data a) np v Hv). specialize (Hwf v Hv). lia.
Qed.

Lemma rehash_count : forall hash fuel a newsz np t,
  wf_array a -> smallintset_rehash hash fuel a newsz np = Ok t ->
  count_nz (data t) = count_nz (data a).
Proof.
  intros hash fuel a newsz np t Hwf H.
  destruct (rehash_parts _ _ _ _ _ _ H) as [k [nk [Hk Hb]]].
  rewrite (build_count hash _ _ _ (rehash_slot_bounds a newsz np nk k Hwf Hk) Hb).
  destruct (alloc_ok _ _ _ Hk) as [_ [Hd _]]. rewrite Hd, count_nz_repeat0. reflexivity.
Qed.

Lemma rehash_found : forall hash fuel a newsz np t x eq,
  wf_array a -> is_pow2 newsz ->
  smallintset_rehash hash fuel a newsz np = Ok t ->
  In x (data a) -> x <> 0 -> (forall i, eq i = true <-> i = x - 1) ->
  jl_smallintset_lookup t eq (hash (x - 1)) = Ok (x - 1).
Proof.
  intros hash fuel a newsz np t x eq Hwf Hp H Hx Hx0 Heq.
  destruct (rehash_parts _ _ _ _ _ _ H) as [k [nk [Hk Hb]]].
  assert (Hpos : 0 < newsz) by (apply pow2_pos; exact Hp).
  assert (Hnk : is_pow2 (nrows nk)).
  { pose proof (Z.pow_pos_nonneg 2 (Z.of_nat k) ltac:(lia) ltac:(lia)).
    rewrite (alloc_nrows _ (newsz * 2 ^ Z.of_nat k) nk ltac:(nia) Hk).
    apply pow2_mul. exact Hp. }
  destruct (build_found hash _ _ _ Hnk (rehash_slot_bounds a newsz np nk k Hwf Hk) Hb)
    as [_ Hf].
  exact (Hf x eq Hx Hx0 Heq).
Qed.

(** ** Invariants of insert *)

Section Retry.

Variable hash : Z -> Z.
Variables HT val : Z.
Variable P : jl_array -> Prop.
Hypothesis HP : forall f t t2, P t ->
  smallintset_insert_ t (hash val) (val + 1) = Ok None ->
  smallintset_rehash hash f t (grow_size HT (nrows t)) 0 = Ok t2 -> P t2.

(** A property kept by the growth rehash holds of every table the retry
    loop publishes and of the table the final placement writes into. *)
Lemma insert_retry_inv : forall fuel t pub a' pub',
  P t -> (forall u, In u pub -> P u) ->
  insert_retry hash HT fuel t val pub = Ok (a', pub') ->
  (forall u, In u pub' -> P u) /\
  exists t0, P t0 /\ smallintset_insert_ t0 (hash val) (val + 1) = Ok (Some a').
Proof.
  induction fuel as [|f IH]; intros t pub a' pub' Ht Hpub H; cbn [insert_retry] in H;
    [discriminate|].
  destruct (smallintset_insert_ t (hash val) (val + 1)) as [[t1|]| |] eqn:Ei;
    cbn [bind] in H; try discriminate.
  - inversion H; subst. split; [exact Hpub | eauto].
  - destruct (smallintset_rehash hash (S f) t (grow_size HT (nrows t)) 0) as [t2| |] eqn:Er;
      cbn [bind] in H; try discriminate.
    apply (IH t2 (pub ++ [t2])); [exact (HP _ _ _ Ht Ei Er) | | exact H].
    intros u Hu. apply in_app_or in Hu as [Hu|[<-|[]]]; [auto | exact (HP _ _ _ Ht Ei Er)].
Qed.

End Retry.

Lemma jl_insert_inv : forall hash HT fuel a val a' pub (P : jl_array -> Prop),
  (forall f t t2, P t -> smallintset_insert_ t (hash val) (val + 1) = Ok None ->
     smallintset_rehash hash f t (grow_size HT (nrows t)) 0 = Ok t2 -> P t2) ->
  (jl_max_int a < val + 1 -> forall f a1,
     smallintset_rehash hash f a (nrows a) (val + 1) = Ok a1 -> P a1) ->
  (val + 1 <= jl_max_int a -> P a) ->
  jl_smallintset_insert hash HT fuel a val = Ok (a', pub) ->
  (forall u, In u pub -> P u) /\
  exists t0, P t0 /\ smallintset_insert_ t0 (hash val) (val + 1) = Ok (Some a').
Proof.
  intros hash HT fuel a val a' pub P HP Hw Hn H. unfold jl_smallintset_insert in H.
  destruct (Z.gtb_spec (val + 1) (jl_max_int a)) as [Hm|Hm].
  - destruct (smallintset_rehash hash fuel a (nrows a) (val + 1)) as [a1| |] eqn:Er;
      cbn [bind] in H; try discriminate.
    apply (insert_retry_inv hash HT val P HP fuel a1 [a1]);
      [exact (Hw Hm _ _ Er) | intros u [<-|[]]; exact (Hw Hm _ _ Er) | exact H].
  - apply (insert_retry_inv hash HT val P HP fuel a []); [exact (Hn Hm) | intros u [] | exact H].
Qed.

Lemma rehash_pow2_or_zero : forall hash f t newsz np t2,
  newsz = 0 \/ is_pow2 newsz ->
  smallintset_rehash hash f t newsz np = Ok t2 ->
  nrows t2 = 0 \/ is_pow2 (nrows t2).
Proof.
  intros hash f t newsz np t2 Hs H.
  assert (Hn : 0 <= newsz) by (destruct Hs as [->|Hp]; [lia | pose proof (pow2_pos _ Hp); lia]).
  destruct (rehash_facts hash f t newsz np t2 Hn H) as [_ [_ [k Hk]]].
  rewrite Hk. destruct Hs as [->|Hp]; [left; reflexivity | right; apply pow2_mul; exact Hp].
Qed.

Lemma insert_some_ge2 : forall a hv v a',
  smallintset_insert_ a hv v = Ok (Some a') -> 2 <= nrows a.
Proof.
  intros a hv v a' H. unfold smallintset_insert_ in H.
  destruct (Z.leb_spec (nrows a) 1); [discriminate | lia].
Qed.

(** With a power-of-two [HT_N_INLINE], starting from capacity 0 or a power
    of two, the final placement writes into a power-of-two table and every
    published table has capacity 0 or a power of two. *)
Lemma jl_insert_pow2 : forall hash HT fuel a val a' pub,
  is_pow2 HT -> nrows a = 0 \/ is_pow2 (nrows a) ->
  jl_smallintset_insert hash HT fuel a val = Ok (a', pub) ->
  (forall u, In u pub -> nrows u = 0 \/ is_pow2 (nrows u)) /\
  exists t0, is_pow2 (nrows t0) /\
    smallintset_insert_ t0 (hash val) (val + 1) = Ok (Some a').
Proof.
  intros hash HT fuel a val a' pub HHT Ha H.
  destruct (jl_insert_inv hash HT fuel a val a' pub (fun t => nrows t = 0 \/ is_pow2 (nrows t)))
    as [Hpub [t0 [Ht0 Ei]]]; [| | intros _; exact Ha | exact H | ].
  - intros f t t2 Ht _ Er. apply (rehash_pow2_or_zero _ _ _ _ _ _ (or_intror (proj1 (grow_pow2 HT HHT _ Ht))) Er).
  - intros _ f a1 Er. exact (rehash_pow2_or_zero _ _ _ _ _ _ Ha Er).
  - split; [exact Hpub|]. exists t0. split; [|exact Ei].
    pose proof (insert_some_ge2 _ _ _ _ Ei). destruct Ht0 as [Hz|Hp]; [lia | exact Hp].
Qed.

Lemma wf_check : forall a,
  forallb (fun x => (0 <=? x) && (x <=? jl_max_int a)) (data a) = true -> wf_array a.
Proof.
  intros a H x Hx. rewrite forallb_forall in H. specialize (H x Hx).
  apply andb_true_iff in H as [H1 H2]. apply Z.leb_le in H1, H2. lia.
Qed.

(** ** Properties of lookup, placement, rehash and insert *)

(** Lookup returns NotFound ([-1]) or an index [r] that the equality
    accepts and whose encoding [r + 1] is a non-zero slot of the table. *)
Theorem lookup_result_sound : forall cache eq hv r,
  jl_smallintset_lookup cache eq hv = Ok r ->
  r = -1 \/ (eq r = true /\ In (r + 1) (data cache) /\ r + 1 <> 0).
Proof. exact lookup_sound. Qed.

Lemma lookup_result_sound_witness :
  jl_smallintset_lookup (mk_array UInt8 [0; 3; 0; 0]) (fun i => i =? 2) 1 = Ok 2 /\
  (2 = -1 \/ ((2 =? 2) = true /\ In (2 + 1) [0; 3; 0; 0] /\ 2 + 1 <> 0)).
Proof.
  assert (H : jl_smallintset_lookup (mk_array UInt8 [0; 3; 0; 0]) (fun i => i =? 2) 1 = Ok 2)
    by reflexivity.
  split; [exact H|]. exact (lookup_result_sound _ _ _ _ H).
Defined.

(** A successful direct placement into a power-of-two table writes the
    first empty slot of the visit list, every slot visited before it being
    occupied; it stores [v] reduced to the element width and changes no
    other slot. *)
Theorem placement_first_empty_visit : forall a hv v a',
  is_pow2 (nrows a) ->
  smallintset_insert_ a hv v = Ok (Some a') ->
  el a' = el a /\
  exists pre q rest, visits (nrows a) hv = pre ++ q :: rest /\
    (forall p, In p pre -> nth (Z.to_nat p) (data a) 0 <> 0) /\
    nth (Z.to_nat q) (data a) 0 = 0 /\
    data a' = list_set (data a) (Z.to_nat q) (Z.land v (jl_max_int a)).
Proof.
  intros a hv v a' Hp H.
  pose proof (insert_some_ge2 _ _ _ _ H) as H2.
  rewrite smallintset_insert_visits in H by assumption.
  destruct (place_first_some _ _ _ _ H) as [pre [q [rest [Hps [Hpre [Hq Hr]]]]]].
  apply release_exact in Hr as [_ [Hel Hd]].
  split; [exact Hel|]. exists pre, q, rest. auto.
Qed.

Lemma placement_first_empty_visit_witness :
  is_pow2 (nrows (mk_array UInt8 [0; 3; 0; 0])) /\
  smallintset_insert_ (mk_array UInt8 [0; 3; 0; 0]) 1 5 =
    Ok (Some (mk_array UInt8 [0; 3; 5; 0])) /\
  el (mk_array UInt8 [0; 3; 5; 0]) = UInt8 /\
  exists pre q rest, visits 4 1 = pre ++ q :: rest /\
    (forall p, In p pre -> nth (Z.to_nat p) [0; 3; 0; 0] 0 <> 0) /\
    nth (Z.to_nat q) [0; 3; 0; 0] 0 = 0 /\
    [0; 3; 5; 0] = list_set [0; 3; 0; 0] (Z.to_nat q) (Z.land 5 255).
Proof.
  assert (Hp : is_pow2 (nrows (mk_array UInt8 [0; 3; 0; 0]))) by (exists 2; split; reflexivity || lia).
  assert (H : smallintset_insert_ (mk_array UInt8 [0; 3; 0; 0]) 1 5 =
              Ok (Some (mk_array UInt8 [0; 3; 5; 0]))) by reflexivity.
  split; [exact Hp|]. split; [exact H|].
  exact (placement_first_empty_visit _ _ _ _ Hp H).
Defined.

(** Direct placement into a readable power-of-two table with at least two
    slots fails exactly when every slot of the visit list is occupied. *)
Theorem placement_fails_iff_full : forall a hv v,
  is_pow2 (nrows a) -> 2 <= nrows a -> el a <> AnyType ->
  (smallintset_insert_ a hv v = Ok None <->
   forall p, In p (visits (nrows a) hv) -> nth (Z.to_nat p) (data a) 0 <> 0).
Proof.
  intros a hv v Hp H2 Hel. rewrite smallintset_insert_visits by assumption. split.
  - intros H. exact (place_first_none a _ v Hel H).
  - apply place_first_full. exact Hel.
Qed.

Lemma placement_fails_iff_full_witness :
  is_pow2 (nrows (mk_array UInt8 [1; 2; 3; 4])) /\ 2 <= nrows (mk_array UInt8 [1; 2; 3; 4]) /\
  smallintset_insert_ (mk_array UInt8 [1; 2; 3; 4]) 0 9 = Ok None.
Proof.
  assert (Hp : is_pow2 (nrows (mk_array UInt8 [1; 2; 3; 4]))) by (exists 2; split; reflexivity || lia).
  split; [exact Hp|]. split; [cbn; lia|].
  apply (placement_fails_iff_full (mk_array UInt8 [1; 2; 3; 4]) 0 9 Hp ltac:(cbn; lia)
           ltac:(discriminate)).
  intros p Hin. vm_compute in Hin.
  destruct Hin as [<-|[<-|[<-|[<-|[]]]]]; discriminate.
Defined.

(** After a direct placement of [v] (with [0 < v] within the element width)
    into a power-of-two table, a lookup from the same hash with an equality
    that accepts exactly [v - 1] returns [v - 1]. *)
Theorem placement_then_lookup : forall a hv v a' eq,
  is_pow2 (nrows a) -> 0 < v <= jl_max_int a ->
  (forall i, eq i = true <-> i = v - 1) ->
  smallintset_insert_ a hv v = Ok (Some a') ->
  jl_smallintset_lookup a' eq hv = Ok (v - 1).
Proof. exact placed_found. Qed.

Lemma placement_then_lookup_witness :
  jl_smallintset_lookup (mk_array UInt8 [0; 3; 5; 0]) (fun i => i =? 4) 1 = Ok (5 - 1).
Proof.
  apply (placement_then_lookup (mk_array UInt8 [0; 3; 0; 0]) 1 5).
  - exists 2. split; reflexivity || lia.
  - cbn. lia.
  - intros i. apply Z.eqb_eq.
  - reflexivity.
Defined.

(** A direct placement into a power-of-two table never changes a lookup
    that found an index: it only fills an empty slot. *)
Theorem placement_keeps_lookup : forall a hv v a' eq h r,
  is_pow2 (nrows a) -> smallintset_insert_ a hv v = Ok (Some a') ->
  jl_smallintset_lookup a eq h = Ok r -> r <> -1 ->
  jl_smallintset_lookup a' eq h = Ok r.
Proof. exact fill_keeps_lookup. Qed.

Lemma placement_keeps_lookup_witness :
  jl_smallintset_lookup (mk_array UInt8 [0; 3; 5; 0]) (fun i => i =? 2) 1 = Ok 2.
Proof.
  apply (placement_keeps_lookup (mk_array UInt8 [0; 3; 0; 0]) 1 5).
  - exists 2. split; reflexivity || lia.
  - reflexivity.
  - reflexivity.
  - lia.
Defined.

(** The table a rehash publishes has an element width above [np] and above
    every old slot, and all its slots hold values of that width. *)
Theorem rehash_result_width : forall hash fuel a newsz np t,
  smallintset_rehash hash fuel a newsz np = Ok t ->
  np < jl_max_int t /\ (forall x, In x (data a) -> x < jl_max_int t) /\ wf_array t.
Proof.
  intros hash fuel a newsz np t H.
  destruct (rehash_width _ _ _ _ _ _ H) as [H1 H2].
  split; [exact H1|]. split; [exact H2|]. exact (rehash_wf _ _ _ _ _ _ H).
Qed.

Lemma rehash_result_width_witness :
  smallintset_rehash (fun i => i) 3 (mk_array UInt16 [0; 1; 2; 0]) 4 300
    = Ok (mk_array UInt16 [1; 2; 0; 0]) /\ 300 < jl_max_int (mk_array UInt16 [1; 2; 0; 0]).
Proof.
  assert (H : smallintset_rehash (fun i => i) 3 (mk_array UInt16 [0; 1; 2; 0]) 4 300
              = Ok (mk_array UInt16 [1; 2; 0; 0])) by reflexivity.
  split; [exact H|]. exact (proj1 (rehash_result_width _ _ _ _ _ _ H)).
Defined.

(** A rehash of a well-formed table keeps the number of occupied slots:
    each old entry is placed exactly once, unreduced. *)
Theorem rehash_keeps_count : forall hash fuel a newsz np t,
  wf_array a -> smallintset_rehash hash fuel a newsz np = Ok t ->
  count_nz (data t) = count_nz (data a).
Proof. exact rehash_count. Qed.

Lemma rehash_keeps_count_witness :
  count_nz [1; 2; 0; 0] = count_nz [0; 1; 2; 0].
Proof.
  apply (rehash_keeps_count (fun i => i) 3 (mk_array UInt8 [0; 1; 2; 0]) 4 0
           (mk_array UInt8 [1; 2; 0; 0])).
  - apply wf_check. reflexivity.
  - reflexivity.
Defined.

(** After a rehash of a well-formed table at a power-of-two capacity, every
    old entry [x] is found by a lookup from [hash (x - 1)] with an equality
    that accepts exactly [x - 1]. *)
Theorem rehash_entries_found : forall hash fuel a newsz np t x eq,
  wf_array a -> is_pow2 newsz ->
  smallintset_rehash hash fuel a newsz np = Ok t ->
  In x (data a) -> x <> 0 -> (forall i, eq i = true <-> i = x - 1) ->
  jl_smallintset_lookup t eq (hash (x - 1)) = Ok (x - 1).
Proof. exact rehash_found. Qed.

Lemma rehash_entries_found_witness :
  jl_smallintset_lookup (mk_array UInt8 [1; 2; 0; 0]) (fun i => i =? 1) (1 - 0) = Ok (2 - 1).
Proof.
  change (1 - 0) with ((fun i : Z => i) (2 - 1)).
  apply (rehash_entries_found (fun i => i) 3 (mk_array UInt8 [0; 1; 2; 0]) 4 0).
  - apply wf_check. reflexivity.
  - exists 2. split; reflexivity || lia.
  - reflexivity.
  - cbn. tauto.
  - discriminate.
  - intros i. apply Z.eqb_eq.
Defined.

(** With a power-of-two [HT_N_INLINE], from a table of capacity 0 or a
    power of two: the final table has a power-of-two capacity, and every
    published table has capacity 0 or a power of two. *)
Theorem insert_capacities_pow2 : forall hash HT fuel a val a' pub,
  is_pow2 HT -> nrows a = 0 \/ is_pow2 (nrows a) ->
  jl_smallintset_insert hash HT fuel a val = Ok (a', pub) ->
  is_pow2 (nrows a') /\ (forall u, In u pub -> nrows u = 0 \/ is_pow2 (nrows u)).
Proof.
  intros hash HT fuel a val a' pub HHT Ha H.
  destruct (jl_insert_pow2 _ _ _ _ _ _ _ HHT Ha H) as [Hpub [t0 [Hp Ei]]].
  split; [|exact Hpub]. rewrite (insert_nrows _ _ _ _ Ei). exact Hp.
Qed.

Lemma insert_capacities_pow2_witness :
  exists a' pub, jl_smallintset_insert ex_hash 32 4 empty_cache 5 = Ok (a', pub) /\
    is_pow2 (nrows a').
Proof.
  destruct (jl_smallintset_insert ex_hash 32 4 empty_cache 5) as [[a' pub]| |] eqn:Hrun;
    try (vm_compute in Hrun; discriminate).
  exists a', pub. split; [reflexivity|].
  apply (proj1 (insert_capacities_pow2 ex_hash 32 4 empty_cache 5 a' pub
                  ltac:(exists 5; split; reflexivity || lia) (or_introl eq_refl) Hrun)).
Defined.

(** Insert, then lookup: with a power-of-two [HT_N_INLINE], from a table
    of capacity 0 or a power of two, whenever the final table's width holds
    [val + 1], a lookup from [hash val] with an equality that accepts
    exactly [val] returns [val]. *)
Theorem insert_then_lookup : forall hash HT fuel a val a' pub eq,
  is_pow2 HT -> nrows a = 0 \/ is_pow2 (nrows a) -> 0 <= val ->
  jl_smallintset_insert hash HT fuel a val = Ok (a', pub) ->
  val + 1 <= jl_max_int a' ->
  (forall i, eq i = true <-> i = val) ->
  jl_smallintset_lookup a' eq (hash val) = Ok val.
Proof.
  intros hash HT fuel a val a' pub eq HHT Ha Hv H Hm Heq.
  destruct (jl_insert_pow2 _ _ _ _ _ _ _ HHT Ha H) as [_ [t0 [Hp Ei]]].
  destruct (insert_exact _ _ _ _ Ei) as [_ [Hel _]].
  rewrite (jl_max_int_el a' t0 Hel) in Hm.
  replace val with (val + 1 - 1) at 2 by lia.
  apply (placed_found t0 (hash val) (val + 1) a' eq Hp); [lia | | exact Ei].
  intros i. rewrite Heq. lia.
Qed.

Lemma insert_then_lookup_witness :
  exists a' pub, jl_smallintset_insert ex_hash 32 4 empty_cache 5 = Ok (a', pub) /\
    jl_smallintset_lookup a' (fun i => i =? 5) (ex_hash 5) = Ok 5.
Proof.
  destruct (jl_smallintset_insert ex_hash 32 4 empty_cache 5) as [[a' pub]| |] eqn:Hrun;
    try (vm_compute in Hrun; discriminate).
  exists a', pub. split; [reflexivity|].
  apply (insert_then_lookup ex_hash 32 4 empty_cache 5 a' pub);
    [exists 5; split; reflexivity || lia | left; reflexivity | lia | exact Hrun | |
     intros i; apply Z.eqb_eq].
  vm_compute in Hrun. inversion Hrun. cbn. lia.
Defined.

(** Insert never loses an entry: with a power-of-two [HT_N_INLINE], from a
    well-formed table of capacity 0 or a power of two, an index [i] that a
    lookup from [hash i] (with an equality accepting exactly [i]) found
    before the insert is still found after it, across every rehash. *)
Theorem insert_keeps_lookups : forall hash HT fuel a val a' pub i eq,
  is_pow2 HT -> nrows a = 0 \/ is_pow2 (nrows a) -> wf_array a ->
  jl_smallintset_insert hash HT fuel a val = Ok (a', pub) ->
  (forall j, eq j = true <-> j = i) -> i <> -1 ->
  jl_smallintset_lookup a eq (hash i) = Ok i ->
  jl_smallintset_lookup a' eq (hash i) = Ok i.
Proof.
  intros hash HT fuel a val a' pub i eq HHT Ha Hwf H Heq Hi Hl.
  set (P := fun t => (nrows t = 0 \/ is_pow2 (nrows t)) /\ wf_array t /\
                     jl_smallintset_lookup t eq (hash i) = Ok i).
  assert (Heq' : forall j, eq j = true <-> j = i + 1 - 1)
    by (intros j; rewrite Heq; split; intros; lia).
  (* a rehash at a power-of-two capacity keeps [i] findable *)
  assert (Hstep : forall f t newsz np t2, P t -> is_pow2 newsz ->
            smallintset_rehash hash f t newsz np = Ok t2 -> P t2).
  { intros f t newsz np t2 [Ht [Hwt Hlt]] Hp Er.
    destruct (lookup_sound _ _ _ _ Hlt) as [E|[_ [Hin Hnz]]]; [contradiction|].
    split; [exact (rehash_pow2_or_zero _ _ _ _ _ _ (or_intror Hp) Er)|].
    split; [exact (rehash_wf _ _ _ _ _ _ Er)|].
    pose proof (rehash_found hash f t newsz np t2 (i + 1) eq Hwt Hp Er Hin Hnz Heq') as Hf.
    replace (i + 1 - 1) with i in Hf by lia. exact Hf. }
  assert (Hpa : is_pow2 (nrows a)).
  { destruct Ha as [H0|Hp]; [|exact Hp].
    unfold jl_smallintset_lookup in Hl. rewrite H0 in Hl. cbn in Hl. inversion Hl. lia. }
  destruct (jl_insert_inv hash HT fuel a val a' pub P) as [_ [t0 [[Ht0 [_ Hl0]] Ei]]];
    [ | | intros _; split; [exact Ha | split; assumption] | exact H | ].
  - intros f t t2 Ht _ Er. apply (Hstep f t (grow_size HT (nrows t)) 0 t2 Ht); [|exact Er].
    exact (proj1 (grow_pow2 HT HHT _ (proj1 Ht))).
  - intros _ f a1 Er. apply (Hstep f a (nrows a) (val + 1) a1); [split; [exact Ha | split; assumption] | exact Hpa | exact Er].
  - pose proof (insert_some_ge2 _ _ _ _ Ei).
    assert (Hp0 : is_pow2 (nrows t0)) by (destruct Ht0 as [Hz|Hp]; [lia | exact Hp]).
    exact (fill_keeps_lookup t0 _ _ a' eq (hash i) i Hp0 Ei Hl0 Hi).
Qed.

Lemma insert_keeps_lookups_witness :
  exists a' pub,
    jl_smallintset_insert ex_hash 32 4 (mk_array UInt8 (list_set (repeat 0 32) 0 6)) 7
      = Ok (a', pub) /\
    jl_smallintset_lookup a' (fun j => j =? 5) (ex_hash 5) = Ok 5.
Proof.
  destruct (jl_smallintset_insert ex_hash 32 4 (mk_array UInt8 (list_set (repeat 0 32) 0 6)) 7)
    as [[a' pub]| |] eqn:Hrun; try (vm_compute in Hrun; discriminate).
  exists a', pub. split; [reflexivity|].
  apply (insert_keeps_lookups ex_hash 32 4 (mk_array UInt8 (list_set (repeat 0 32) 0 6)) 7 a' pub);
    [ exists 5; split; reflexivity || lia
    | right; exists 5; split; reflexivity || lia
    | apply wf_check; reflexivity
    | exact Hrun
    | intros j; apply Z.eqb_eq
    | lia
    | reflexivity ].
Defined.

(** Insert adds exactly one occupied slot to a well-formed table, whenever
    the final table's width holds [val + 1]; it does not check whether
    [val] is already present. *)
Theorem insert_adds_one_slot : forall hash HT fuel a val a' pub,
  wf_array a -> 0 <= val ->
  jl_smallintset_insert hash HT fuel a val = Ok (a', pub) ->
  val + 1 <= jl_max_int a' ->
  count_nz (data a') = S (count_nz (data a)).
Proof.
  intros hash HT fuel a val a' pub Hwf Hv H Hm.
  destruct (jl_insert_inv hash HT fuel a val a' pub
              (fun t => wf_array t /\ count_nz (data t) = count_nz (data a)))
    as [_ [t0 [[_ Hc] Ei]]]; [ | | intros _; split; [exact Hwf | reflexivity] | exact H | ].
  - intros f t t2 [Hwt Hct] _ Er.
    split; [exact (rehash_wf _ _ _ _ _ _ Er)|]. rewrite (rehash_count _ _ _ _ _ _ Hwt Er). exact Hct.
  - intros _ f a1 Er. split; [exact (rehash_wf _ _ _ _ _ _ Er)|]. exact (rehash_count _ _ _ _ _ _ Hwf Er).
  - destruct (insert_exact _ _ _ _ Ei) as [_ [Hel _]].
    rewrite (jl_max_int_el a' t0 Hel) in Hm.
    rewrite (insert_count t0 (hash val) (val + 1) a'); [congruence | lia | exact Ei].
Qed.

Lemma insert_adds_one_slot_witness :
  exists a' pub,
    jl_smallintset_insert ex_hash 32 4 (mk_array UInt8 (list_set (repeat 0 32) 0 7)) 7
      = Ok (a', pub) /\
    count_nz (data a') = S (count_nz (list_set (repeat 0 32) 0 7)).
Proof.
  destruct (jl_smallintset_insert ex_hash 32 4 (mk_array UInt8 (list_set (repeat 0 32) 0 7)) 7)
    as [[a' pub]| |] eqn:Hrun; try (vm_compute in Hrun; discriminate).
  exists a', pub. split; [reflexivity|].
  apply (insert_adds_one_slot ex_hash 32 4 (mk_array UInt8 (list_set (repeat 0 32) 0 7)) 7 a' pub);
    [apply wf_check; reflexivity | lia | exact Hrun |].
  vm_compute in Hrun. inversion Hrun. cbn. lia.
Defined.

(** ** The domain boundary on insert *)

Lemma fold_max_cases : forall l acc,
  fold_left Z.max l acc = acc \/ In (fold_left Z.max l acc) l.
Proof.
  induction l as [|x l IH]; intros acc; cbn; [left; reflexivity|].
  destruct (IH (Z.max acc x)) as [E|E]; [|right; right; exact E].
  rewrite E. destruct (Z.max_spec acc x) as [[_ ->]|[_ ->]];
    [right; left; reflexivity | left; reflexivity].
Qed.

Lemma fold_max_lt : forall l acc b,
  acc < b -> (forall x, In x l -> x < b) -> fold_left Z.max l acc < b.
Proof.
  intros l acc b Ha Hl. destruct (fold_max_cases l acc) as [->|H]; [exact Ha | exact (Hl _ H)].
Qed.

(** The slots of a rebuilt table are its own (zero) slots or re-inserted
    ones. *)
Lemma build_slots : forall hash slots t t',
  build_in_order hash slots t = Ok (Some t') ->
  (forall v, In v slots -> 0 <= v <= jl_max_int t) ->
  forall y, In y (data t') -> In y (data t) \/ In y slots.
Proof.
  intros hash. induction slots as [|v vs IH]; intros t t' H Hb y Hy;
    cbn [build_in_order] in H.
  - inversion H; subst. left; exact Hy.
  - destruct (Z.eqb_spec v 0) as [Hv|Hv].
    + destruct (IH t t' H (fun w Hw => Hb w (or_intror Hw)) y Hy) as [H1|H1];
        [left; exact H1 | right; right; exact H1].
    + destruct (smallintset_insert_ t (hash (v - 1)) v) as [[t1|]| |] eqn:Ei;
        cbn [bind] in H; try discriminate.
      destruct (insert_exact _ _ _ _ Ei) as [_ [Hel [p [_ [_ Hd]]]]].
      assert (Hb1 : forall w, In w vs -> 0 <= w <= jl_max_int t1)
        by (intros w Hw; rewrite (jl_max_int_el t1 t Hel); apply Hb; right; exact Hw).
      destruct (IH t1 t' H Hb1 y Hy) as [H1|H1]; [|right; right; exact H1].
      rewrite Hd, land_max_small in H1 by (apply Hb; left; reflexivity).
      destruct (In_list_set_or _ _ _ _ H1) as [H2| ->];
        [left; exact H2 | right; left; reflexivity].
Qed.

(** A rehash of a table with nonnegative slots stores no new value. *)
Lemma rehash_slots : forall hash fuel a newsz np t,
  smallintset_rehash hash fuel a newsz np = Ok t ->
  (forall x, In x (data a) -> 0 <= x) ->
  forall y, In y (data t) -> y = 0 \/ In y (data a).
Proof.
  intros hash fuel a newsz np t H Hnn y Hy.
  destruct (rehash_parts _ _ _ _ _ _ H) as [k [nk [Ek Eb]]].
  destruct (alloc_ok _ _ _ Ek) as [Hlt [Hd _]].
  assert (Hb : forall v, In v (data a) -> 0 <= v <= jl_max_int nk)
    by (intros v Hv; pose proof (fold_max_in (data a) np v Hv); pose proof (Hnn v Hv); lia).
  destruct (build_slots hash (data a) nk t Eb Hb y Hy) as [H1|H1]; [left|right; exact H1].
  rewrite Hd in H1. apply repeat_spec in H1. exact H1.
Qed.

Lemma rehash_typed : forall hash fuel a newsz np t,
  smallintset_rehash hash fuel a newsz np = Ok t -> el t <> AnyType.
Proof.
  intros hash fuel a newsz np t H.
  destruct (rehash_parts _ _ _ _ _ _ H) as [k [nk [Ek Eb]]].
  destruct (alloc_ok _ _ _ Ek) as [_ [_ Hel]].
  destruct (build_some hash _ _ _ Eb) as [H1 _]. congruence.
Qed.

(** The retry loop of insert never aborts while the slots stay below the
    boundary: its growth rehashes start from [np = 0]. *)
Lemma insert_retry_no_abort : forall hash HT fuel t val pub,
  el t <> AnyType -> (forall x, In x (data t) -> 0 <= x < 2147483647) ->
  insert_retry hash HT fuel t val pub <> Abort.
Proof.
  intros hash HT. induction fuel as [|f IH]; intros t val pub Hel Hb;
    cbn [insert_retry]; [discriminate|].
  destruct (insert_ok t (hash val) (val + 1) Hel) as [[t1|] ->]; cbn [bind]; [discriminate|].
  assert (Hr : el t <> AnyType \/ data t = []) by (left; exact Hel).
  assert (Hlt : fold_left Z.max (data t) 0 < 2147483647)
    by (apply fold_max_lt; [lia | intros x Hx; apply Hb; exact Hx]).
  pose proof (proj2 (rehash_domain hash (S f) t (grow_size HT (nrows t)) 0 Hr) Hlt) as Hna.
  destruct (smallintset_rehash hash (S f) t (grow_size HT (nrows t)) 0) as [t2| |] eqn:Er;
    cbn [bind]; [|contradiction|discriminate].
  apply IH; [exact (rehash_typed _ _ _ _ _ _ Er)|].
  intros y Hy.
  destruct (rehash_slots _ _ _ _ _ _ Er (fun x Hx => proj1 (Hb x Hx)) y Hy) as [->|Hy'];
    [lia | apply Hb; exact Hy'].
Qed.

(** C8 (amended): the only abort on this path is the assertion of the
    allocation, reached through a rehash.  A rehash whose required value
    [np'] (the largest of [np] and the old slots) is at least [2^31 - 1]
    aborts at its first allocation; a rehash with [np' < 2^31 - 1] never
    aborts.  Inserting [val >= 0] into a readable table whose slots are
    nonnegative and below [2^31 - 1] aborts when [val + 1] exceeds the
    table's width and is at least [2^31 - 1] (the widening rehash), and
    never aborts otherwise: when [val + 1] fits the width no check is made,
    whatever [val] is. *)
Theorem smallintset_domain : forall hash HT fuel a newsz np val,
  el a <> AnyType \/ data a = [] ->
  (2147483647 <= fold_left Z.max (data a) np ->
     smallintset_rehash hash (S fuel) a newsz np = Abort) /\
  (fold_left Z.max (data a) np < 2147483647 ->
     smallintset_rehash hash fuel a newsz np <> Abort) /\
  (0 <= val -> (forall x, In x (data a) -> 0 <= x < 2147483647) ->
     (jl_max_int a < val + 1 -> 2147483647 <= val + 1 ->
        jl_smallintset_insert hash HT (S fuel) a val = Abort) /\
     (val + 1 <= jl_max_int a \/ val + 1 < 2147483647 ->
        jl_smallintset_insert hash HT fuel a val <> Abort)).
Proof.
  intros hash HT fuel a newsz np val Hr.
  split; [exact (proj1 (rehash_domain hash fuel a newsz np Hr))|].
  split; [exact (proj2 (rehash_domain hash fuel a newsz np Hr))|].
  intros Hv Hb. split.
  - intros Hm Hbig. unfold jl_smallintset_insert.
    destruct (Z.gtb_spec (val + 1) (jl_max_int a)); [|lia].
    rewrite (proj1 (rehash_domain hash fuel a (nrows a) (val + 1) Hr))
      by (pose proof (fold_max_acc (data a) (val + 1)); lia).
    reflexivity.
  - intros Hc. unfold jl_smallintset_insert.
    destruct (Z.gtb_spec (val + 1) (jl_max_int a)) as [Hm|Hm].
    + assert (Hlt : fold_left Z.max (data a) (val + 1) < 2147483647)
        by (apply fold_max_lt; [lia | intros x Hx; apply Hb; exact Hx]).
      pose proof (proj2 (rehash_domain hash fuel a (nrows a) (val + 1) Hr) Hlt) as Hna.
      destruct (smallintset_rehash hash fuel a (nrows a) (val + 1)) as [a1| |] eqn:Er;
        cbn [bind]; [|contradiction|discriminate].
      apply insert_retry_no_abort; [exact (rehash_typed _ _ _ _ _ _ Er)|].
      intros y Hy.
      destruct (rehash_slots _ _ _ _ _ _ Er (fun x Hx => proj1 (Hb x Hx)) y Hy) as [->|Hy'];
        [lia | apply Hb; exact Hy'].
    + apply insert_retry_no_abort; [|exact Hb].
      intros E. unfold jl_max_int in Hm. rewrite E in Hm. lia.
Qed.

Lemma smallintset_domain_witness :
  smallintset_rehash ex_hash 1 (mk_array UInt32 [0; 2147483648; 0; 0]) 4 0 = Abort /\
  smallintset_rehash ex_hash 1 (mk_array UInt16 [0; 5; 0; 0]) 4 0 <> Abort /\
  jl_smallintset_insert ex_hash 32 1 (mk_array UInt16 [0; 5; 0; 0]) 2147483646 = Abort /\
  jl_smallintset_insert ex_hash 32 4 (mk_array UInt32 (repeat 0 32)) 2147483648 <> Abort.
Proof.
  assert (R1 : el (mk_array UInt32 [0; 2147483648; 0; 0]) <> AnyType \/
               data (mk_array UInt32 [0; 2147483648; 0; 0]) = []) by (left; discriminate).
  assert (R2 : el (mk_array UInt16 [0; 5; 0; 0]) <> AnyType \/
               data (mk_array UInt16 [0; 5; 0; 0]) = []) by (left; discriminate).
  assert (R3 : el (mk_array UInt32 (repeat 0 32)) <> AnyType \/
               data (mk_array UInt32 (repeat 0 32)) = []) by (left; discriminate).
  assert (B2 : forall x, In x (data (mk_array UInt16 [0; 5; 0; 0])) -> 0 <= x < 2147483647)
    by (intros x Hx; cbn in Hx; destruct Hx as [<-|[<-|[<-|[<-|[]]]]]; lia).
  assert (B3 : forall x, In x (data (mk_array UInt32 (repeat 0 32))) -> 0 <= x < 2147483647)
    by (intros x Hx; apply repeat_spec in Hx; lia).
  split; [|split; [|split]].
  - apply (proj1 (smallintset_domain ex_hash 32 0 (mk_array UInt32 [0; 2147483648; 0; 0])
                    4 0 0 R1)).
    cbn. lia.
  - apply (proj1 (proj2 (smallintset_domain ex_hash 32 1 (mk_array UInt16 [0; 5; 0; 0])
                           4 0 0 R2))).
    cbn. lia.
  - apply (proj1 (proj2 (proj2 (smallintset_domain ex_hash 32 0 (mk_array UInt16 [0; 5; 0; 0])
                                  4 0 2147483646 R2)) ltac:(lia) B2)); cbn; lia.
  - apply (proj2 (proj2 (proj2 (smallintset_domain ex_hash 32 4 (mk_array UInt32 (repeat 0 32))
                                  32 0 2147483648 R3)) ltac:(lia) B3)).
    left. cbn. lia.
Defined.
